(** * Wayfinder: route search over constant-product pools

    A shallow embedding of the TypeScript SDK of wayfinder
    (pathfinding.ts, state.ts, wayfinder.ts, types.ts) together with the
    properties of its pricing function, its route search and its quote
    calculator.

    Conventions of the embedding:
    - [PublicKey] is the 256-bit value of the key as a number; [equals]
      is equality and [toBase58] is injective, so a [Map<string, _>]
      keyed by [toBase58] is a [gmap] keyed by the key itself, and a
      [Set<string>] is a [gset].
    - [BN] (bn.js) is an arbitrary-precision signed integer: [Z].
      [BN.div] truncates towards zero ([Z.quot]) and throws on a zero
      divisor.
    - JS numbers that hold integers ([feeBps], [hops], [maxHops]) are [Z].
    - [Array.prototype.sort] is stable. *)

From stdpp Require Import gmap list.
From Stdlib Require Import ZArith Lia QArith Sorted.

Local Open Scope Z_scope.

Abbreviation PublicKey := N.

(** ** types.ts *)

Record PoolInfo := mkPool {
  address : PublicKey;
  tokenA : PublicKey;
  tokenB : PublicKey;
  feeBps : Z;
  reserveA : Z;
  reserveB : Z
}.

Record SwapQuote := mkQuote {
  inputAmount : Z;
  outputAmount : Z;
  priceImpact : Q;
  fee : Z;
  quote_route : list PublicKey
}.

(** ** pathfinding.ts *)

Record PathNode := mkNode {
  token : PublicKey;
  cost : Z;
  hops : Z;
  path : list PublicKey;
  amountOut : Z
}.

(** The anonymous result type [{ route; amountOut }] of the search. *)
Record RouteAmount := mkRouteAmount {
  route : list PublicKey;
  route_amountOut : Z
}.

Record AStarPathfinder := mkPathfinder {
  pools : list PoolInfo;
  maxHops : Z
}.

(** [constructor(pools, maxHops = 3)]: [this.maxHops = Math.min(maxHops, 5)]. *)
Definition newAStarPathfinder (ps : list PoolInfo) (requested : Z) : AStarPathfinder :=
  {| pools := ps; maxHops := Z.min requested 5 |}.

Definition defaultMaxHops : Z := 3.

Definition getOtherToken (pool : PoolInfo) (tok : PublicKey) : option PublicKey :=
  if decide (tok = tokenA pool) then Some (tokenB pool)
  else if decide (tok = tokenB pool) then Some (tokenA pool)
  else None.

Definition reserveIn (pool : PoolInfo) (inputMint : PublicKey) : Z :=
  if decide (inputMint = tokenA pool) then reserveA pool else reserveB pool.

Definition reserveOut (pool : PoolInfo) (inputMint : PublicKey) : Z :=
  if decide (inputMint = tokenA pool) then reserveB pool else reserveA pool.

Definition feeFactor (pool : PoolInfo) : Z := 10000 - feeBps pool.

Definition numerator (pool : PoolInfo) (inputMint : PublicKey) (amountIn : Z) : Z :=
  amountIn * feeFactor pool * reserveOut pool inputMint.

Definition denominator (pool : PoolInfo) (inputMint : PublicKey) (amountIn : Z) : Z :=
  reserveIn pool inputMint * 10000 + amountIn * feeFactor pool.

(** [AStarPathfinder.getOutputAmount]: [None] is [null]. *)
Definition getOutputAmount (pool : PoolInfo) (inputMint : PublicKey) (amountIn : Z)
  : option Z :=
  let isTokenA := bool_decide (inputMint = tokenA pool) in
  let isTokenB := bool_decide (inputMint = tokenB pool) in
  if negb isTokenA && negb isTokenB then None
  else if denominator pool inputMint amountIn =? 0 then None
  else Some (Z.quot (numerator pool inputMint amountIn)
                    (denominator pool inputMint amountIn)).

(** ** state.ts *)

(** What a call of a method that may throw does. *)
Inductive outcome (A : Type) :=
| Throws : outcome A
| Returns : A → outcome A.
Arguments Throws {A}.
Arguments Returns {A} _.

(** [PoolInfoState.getOutputAmount]: the same formula without the
    zero-denominator guard, so [BN.div] throws there. *)
Definition PoolInfoState_getOutputAmount (pool : PoolInfo) (inputMint : PublicKey)
  (amountIn : Z) : outcome (option Z) :=
  let isTokenA := bool_decide (inputMint = tokenA pool) in
  let isTokenB := bool_decide (inputMint = tokenB pool) in
  if negb isTokenA && negb isTokenB then Returns None
  else if denominator pool inputMint amountIn =? 0 then Throws
  else Returns (Some (Z.quot (numerator pool inputMint amountIn)
                             (denominator pool inputMint amountIn))).

(** ** The search loop of [findOptimalRoute] *)

Definition BN_cmp (a b : Z) : Z :=
  match a ?= b with Lt => -1 | Eq => 0 | Gt => 1 end.

(** The comparator handed to [openSet.sort]. *)
Definition compareNodes (a b : PathNode) : Z :=
  let cmp := BN_cmp (cost a) (cost b) in
  if cmp =? 0 then hops a - hops b else cmp.

(** A stable sort: an element stays in front of the later elements
    that compare equal to it. *)
Fixpoint sortInsert (x : PathNode) (l : list PathNode) : list PathNode :=
  match l with
  | [] => [x]
  | y :: l' => if compareNodes x y <=? 0 then x :: l else y :: sortInsert x l'
  end.

Definition sortNodes (l : list PathNode) : list PathNode :=
  foldr sortInsert [] l.

Record SearchState := mkState {
  openSet : list PathNode;
  visited : gset N;
  bestRoutes : gmap N (Z * Z);
  bestSolution : option RouteAmount
}.

Definition two64 : Z := 2 ^ 64.

(** The test [current.amountOut < best.amount ||
    (current.amountOut = best.amount && current.hops > best.hops)]. *)
Definition isStale (current : PathNode) (best : option (Z * Z)) : bool :=
  match best with
  | Some (bAmount, bHops) =>
      (amountOut current <? bAmount)
      || ((amountOut current =? bAmount) && (hops current >? bHops))
  | None => false
  end.

Definition shouldExplore (out : Z) (newHops : Z) (bestNext : option (Z * Z)) : bool :=
  match bestNext with
  | None => true
  | Some (bAmount, bHops) =>
      (out >? bAmount) || ((out =? bAmount) && (newHops <? bHops))
  end.

(** One pass of the body of [for (const pool of this.pools)]. *)
Definition explorePool (current : PathNode) (vis : gset N)
  (acc : list PathNode * gmap N (Z * Z)) (pool : PoolInfo)
  : list PathNode * gmap N (Z * Z) :=
  match getOtherToken pool (token current) with
  | None => acc
  | Some nextToken =>
      if bool_decide (nextToken ∈ vis) then acc
      else match getOutputAmount pool (token current) (amountOut current) with
           | None => acc
           | Some out =>
               if out =? 0 then acc
               else if shouldExplore out (hops current + 1) (acc.2 !! nextToken)
               then (acc.1 ++ [ {| token := nextToken;
                                   cost := two64 - out;
                                   hops := hops current + 1;
                                   path := path current ++ [address pool];
                                   amountOut := out |} ],
                     <[nextToken := (out, hops current + 1)]> acc.2)
               else acc
           end
  end.

Definition updateSolution (current : PathNode) (bs : option RouteAmount)
  : option RouteAmount :=
  match bs with
  | None => Some {| route := path current; route_amountOut := amountOut current |}
  | Some s =>
      if amountOut current >? route_amountOut s
      then Some {| route := path current; route_amountOut := amountOut current |}
      else bs
  end.

(** The body of the [while] loop once [current] has been shifted off the
    sorted open set [rest]. *)
Definition processNode (pf : AStarPathfinder) (outputMint : PublicKey)
  (current : PathNode) (rest : list PathNode) (st : SearchState) : SearchState :=
  if isStale current (bestRoutes st !! token current) then
    mkState rest (visited st) (bestRoutes st) (bestSolution st)
  else if bool_decide (token current = outputMint) then
    mkState rest (visited st) (bestRoutes st) (updateSolution current (bestSolution st))
  else if hops current >=? maxHops pf then
    mkState rest (visited st) (bestRoutes st) (bestSolution st)
  else
    let vis := visited st ∪ {[ token current ]} in
    let r := foldl (explorePool current vis) (rest, bestRoutes st) (pools pf) in
    mkState r.1 vis r.2 (bestSolution st).

(** One iteration of [while (openSet.length > 0)]. *)
Definition step (pf : AStarPathfinder) (outputMint : PublicKey) (st : SearchState)
  : SearchState :=
  match sortNodes (openSet st) with
  | [] => st
  | current :: rest => processNode pf outputMint current rest st
  end.

Definition initialState (inputMint : PublicKey) (amountIn : Z) : SearchState :=
  {| openSet := [ {| token := inputMint; cost := 0; hops := 0; path := [];
                     amountOut := amountIn |} ];
     visited := ∅;
     bestRoutes := {[ inputMint := (amountIn, 0) ]};
     bestSolution := None |}.

(** The loop, cut off after [fuel] iterations: [None] when the open set
    is not yet empty by then. *)
Fixpoint searchLoop (pf : AStarPathfinder) (outputMint : PublicKey) (fuel : nat)
  (st : SearchState) : option (option RouteAmount) :=
  match openSet st with
  | [] => Some (bestSolution st)
  | _ :: _ =>
      match fuel with
      | O => None
      | S fuel' => searchLoop pf outputMint fuel' (step pf outputMint st)
      end
  end.

Definition findOptimalRoute_fuel (fuel : nat) (pf : AStarPathfinder)
  (inputMint outputMint : PublicKey) (amountIn : Z) : option (option RouteAmount) :=
  if decide (inputMint = outputMint) then Some None
  else searchLoop pf outputMint fuel (initialState inputMint amountIn).

(** A node with [k] hops left is worth itself plus whatever its
    expansion can push: at most one node per pool, each with [k - 1]
    hops left. *)
Fixpoint weight (npools : nat) (k : nat) : nat :=
  match k with
  | O => 1
  | S k' => S (npools * weight npools k')
  end.

Definition hopsLeft (pf : AStarPathfinder) (n : PathNode) : nat :=
  Z.to_nat (maxHops pf - hops n).

Definition enoughFuel (pf : AStarPathfinder) : nat :=
  weight (length (pools pf)) (Z.to_nat (maxHops pf)).

(** [findOptimalRoute]: [None] is [null]. *)
Definition findOptimalRoute (pf : AStarPathfinder)
  (inputMint outputMint : PublicKey) (amountIn : Z) : option RouteAmount :=
  match findOptimalRoute_fuel (enoughFuel pf) pf inputMint outputMint amountIn with
  | Some r => r
  | None => None
  end.

(** ** Scenario of the test suite *)

Definition tokA : PublicKey := 1%N.
Definition tokB : PublicKey := 2%N.
Definition tokC : PublicKey := 3%N.
Definition pool1 := mkPool 101 tokA tokB 30 1000000 2000000.
Definition pool2 := mkPool 102 tokB tokC 30 2000000 3000000.
Definition pool3 := mkPool 103 tokA tokC 50 1000000 2500000.

(** ** wayfinder.ts *)

(** [pools.find((p) => p.address.equals(poolAddress))]: the first match. *)
Definition findPool (ps : list PoolInfo) (poolAddress : PublicKey) : option PoolInfo :=
  List.find (λ p, bool_decide (address p = poolAddress)) ps.

(** The body of the fee loop: [amountIn] is the amount given to
    [getSwapQuote], the same at every hop. *)
Definition addFee (amountIn : Z) (ps : list PoolInfo) (totalFee : Z)
  (poolAddress : PublicKey) : Z :=
  match findPool ps poolAddress with
  | Some pool => totalFee + Z.quot (amountIn * feeBps pool) 10000
  | None => totalFee
  end.

(** The fee the loop of [getSwapQuote] adds for one identifier of the
    route: charged on the quote's own [amountIn]. *)
Definition flatHopFee (amountIn : Z) (ps : list PoolInfo) (poolAddress : PublicKey) : Z :=
  match findPool ps poolAddress with
  | Some pool => Z.quot (amountIn * feeBps pool) 10000
  | None => 0
  end.

Definition sumZ (l : list Z) : Z := foldr Z.add 0 l.

(** [WayfinderClient.getSwapQuote]; [priceImpact] is the constant [0]. *)
Definition getSwapQuote (inputMint outputMint : PublicKey) (amountIn : Z)
  (ps : list PoolInfo) (requestedMaxHops : Z) : option SwapQuote :=
  let pathfinder := newAStarPathfinder ps requestedMaxHops in
  match findOptimalRoute pathfinder inputMint outputMint amountIn with
  | None => None
  | Some result =>
      Some {| inputAmount := amountIn;
              outputAmount := route_amountOut result;
              priceImpact := 0%Q;
              fee := foldl (addFee amountIn ps) 0 (route result);
              quote_route := route result |}
  end.

(** [AStarPathfinder.calculatePriceImpact], up to its last line: the
    value of the [BN] [impact], in units of 1e-4 percent. The function
    returns [impact.toNumber() / 1e4]. Each [div] throws on a zero
    divisor. *)
Definition calculatePriceImpact_impact (rIn rOut amountIn amtOut : Z) : outcome Z :=
  if rIn =? 0 then Throws
  else
    let spotPrice := Z.quot (rOut * 1000000) rIn in
    if amountIn =? 0 then Throws
    else
      let executionPrice := Z.quot (amtOut * 1000000) amountIn in
      if spotPrice =? 0 then Throws
      else Returns (1000000 - Z.quot (executionPrice * 1000000) spotPrice).

(** ** instructions.ts *)

Inductive WayfinderInstructionType :=
| InitializeRoute
| FindOptimalRoute
| ExecuteRoute
| RegisterPool.

(** The numeric value of the enum member, as written into the
    instruction data. *)
Definition instructionTag (t : WayfinderInstructionType) : Z :=
  match t with
  | InitializeRoute => 0
  | FindOptimalRoute => 1
  | ExecuteRoute => 2
  | RegisterPool => 3
  end.

(** An entry of [keys] and the [TransactionInstruction] of web3.js;
    [data] is the byte buffer. *)
Record AccountMeta := mkMeta {
  pubkey : PublicKey;
  isSigner : bool;
  isWritable : bool
}.

Record TransactionInstruction := mkInstruction {
  keys : list AccountMeta;
  programId : PublicKey;
  data : list Z
}.

Definition createFindOptimalRouteInstruction (program routeState : PublicKey)
  (poolAccounts : list PublicKey) : TransactionInstruction :=
  {| keys := {| pubkey := routeState; isSigner := false; isWritable := true |}
             :: ((λ pool, {| pubkey := pool; isSigner := false; isWritable := false |})
                   <$> poolAccounts);
     programId := program;
     data := [instructionTag FindOptimalRoute] |}.

Definition createExecuteRouteInstruction (program routeState authority
  userInputTokenAccount userOutputTokenAccount : PublicKey)
  (poolAndTokenAccounts : list PublicKey) : TransactionInstruction :=
  {| keys := {| pubkey := routeState; isSigner := false; isWritable := true |}
             :: {| pubkey := authority; isSigner := true; isWritable := false |}
             :: {| pubkey := userInputTokenAccount; isSigner := false;
                   isWritable := true |}
             :: {| pubkey := userOutputTokenAccount; isSigner := false;
                   isWritable := true |}
             :: ((λ account, {| pubkey := account; isSigner := false;
                                isWritable := true |})
                   <$> poolAndTokenAccounts);
     programId := program;
     data := [instructionTag ExecuteRoute] |}.

(** ** Routes as sequences of pools *)

(** The asset and the amount held after trading [amt] of [tok] through
    the pools [hopPools] in order, each hop priced by [getOutputAmount]. *)
Fixpoint routeOutput (hopPools : list PoolInfo) (tok : PublicKey) (amt : Z)
  : option (PublicKey * Z) :=
  match hopPools with
  | [] => Some (tok, amt)
  | p :: rest =>
      match getOtherToken p tok, getOutputAmount p tok amt with
      | Some next, Some out => routeOutput rest next out
      | _, _ => None
      end
  end.

(** The assets met along [hopPools], starting at [tok] and moving to
    each pool's other asset. *)
Fixpoint assetSequence (hopPools : list PoolInfo) (tok : PublicKey) : list PublicKey :=
  tok :: match hopPools with
         | [] => []
         | p :: rest =>
             match getOtherToken p tok with
             | Some next => assetSequence rest next
             | None => []
             end
         end.

(** The same sequence read off a route of pool identifiers, each
    resolved in the snapshot; [None] when an identifier resolves to no
    pool or the pool does not hold the current asset. *)
Fixpoint impliedAssets (ps : list PoolInfo) (tok : PublicKey) (r : list PublicKey)
  : option (list PublicKey) :=
  match r with
  | [] => Some [tok]
  | a :: rest =>
      match findPool ps a with
      | None => None
      | Some p =>
          match getOtherToken p tok with
          | None => None
          | Some next => cons tok <$> impliedAssets ps next rest
          end
      end
  end.

(** The invariants of the data model: fee in [0, 10000), reserves not
    negative. *)
Definition wf_pool (p : PoolInfo) : Prop :=
  0 ≤ feeBps p < 10000 ∧ 0 ≤ reserveA p ∧ 0 ≤ reserveB p.

(** ** The quote calculator as the specification words it *)

(** Total fee of a replay: each hop charges [inputAtHop * feeBps / 10000]
    on the amount entering that hop. *)
Fixpoint spec_totalFee (ps : list PoolInfo) (tok : PublicKey) (inputAtHop : Z)
  (r : list PublicKey) : Z :=
  match r with
  | [] => 0
  | a :: rest =>
      match findPool ps a with
      | None => 0
      | Some p =>
          match getOtherToken p tok, getOutputAmount p tok inputAtHop with
          | Some next, Some out =>
              inputAtHop * feeBps p / 10000 + spec_totalFee ps next out rest
          | _, _ => 0
          end
      end
  end.

(** Percentage shortfall of the realized price [finalOutput / amountIn]
    against the spot price [rOut / rIn] of the first pool. *)
Definition spec_priceImpact (rIn rOut amountIn finalOutput : Z) : Q :=
  ((1 - (inject_Z finalOutput / inject_Z amountIn)
        / (inject_Z rOut / inject_Z rIn)) * 100)%Q.

(** ** Invariant of the search *)

Section SearchInvariant.
Variables (pf : AStarPathfinder) (inputMint outputMint : PublicKey) (amountIn : Z).

(** The node [n] stands for the trade of [amountIn] through
    [hopPools]: its fields are those of that trade, the assets of the
    trade are distinct and all but the node's own have been expanded. *)
Record reachedBy (vis : gset N) (n : PathNode) (hopPools : list PoolInfo) : Prop := {
  rb_pools : Forall (λ p, p ∈ pools pf) hopPools;
  rb_path : path n = address <$> hopPools;
  rb_hops : hops n = Z.of_nat (length hopPools);
  rb_output : routeOutput hopPools inputMint amountIn = Some (token n, amountOut n);
  rb_simple : NoDup (assetSequence hopPools inputMint);
  rb_visited : ∀ t, t ∈ assetSequence hopPools inputMint → t = token n ∨ t ∈ vis;
  rb_nonzero : hopPools ≠ [] → amountOut n ≠ 0;
  rb_bound : hops n ≤ Z.max 0 (maxHops pf)
}.

Definition nodeOk (vis : gset N) (n : PathNode) : Prop :=
  ∃ hopPools, reachedBy vis n hopPools.

(** What a returned route is: a trade through pools of the snapshot,
    within the hop bound, over distinct assets, from the input asset
    to the output asset, with the amount the pricing function gives. *)
Definition validRoute (s : RouteAmount) : Prop :=
  ∃ hopPools,
    Forall (λ p, p ∈ pools pf) hopPools
    ∧ route s = address <$> hopPools
    ∧ Z.of_nat (length hopPools) ≤ Z.max 0 (maxHops pf)
    ∧ routeOutput hopPools inputMint amountIn = Some (outputMint, route_amountOut s)
    ∧ NoDup (assetSequence hopPools inputMint)
    ∧ (hopPools ≠ [] → route_amountOut s ≠ 0).

Record invariant (st : SearchState) : Prop := {
  inv_open : Forall (nodeOk (visited st)) (openSet st);
  inv_solution : ∀ s, bestSolution st = Some s → validRoute s
}.

(** The variant of the loop: the weights of the open nodes. *)
Definition measure (l : list PathNode) : nat :=
  sum_list_with (λ n, weight (length (pools pf)) (hopsLeft pf n)) l.
End SearchInvariant.

(** The best-known entry of the output asset is still waiting in the
    open set, or the solution found so far is at least as good. *)
Definition bestPending (outputMint : PublicKey) (open : list PathNode)
  (best : gmap N (Z * Z)) (sol : option RouteAmount) : Prop :=
  ∀ b h, best !! outputMint = Some (b, h) →
    (∃ n, n ∈ open ∧ token n = outputMint ∧ amountOut n = b ∧ hops n = h)
    ∨ (∃ s, sol = Some s ∧ b ≤ route_amountOut s).

(** ** Pool snapshots used as concrete inputs *)

Definition tokX : PublicKey := 1%N.
Definition tokT : PublicKey := 2%N.
Definition tokY : PublicKey := 3%N.
Definition tokZ : PublicKey := 4%N.
Definition tokW : PublicKey := 5%N.
Definition tokV : PublicKey := 6%N.

(** X-T is the better first hop, but T is reached with far more
    through Y. *)
Definition poolXT := mkPool 201 tokX tokT 30 1000000 100000.
Definition poolXY := mkPool 202 tokX tokY 30 1000000 50000.
Definition poolYT := mkPool 203 tokY tokT 30 1000 1000000.
Definition poolTZ := mkPool 204 tokT tokZ 30 1000000 1000000.
Definition detourSnapshot := [poolXT; poolXY; poolYT; poolTZ].

(** Y is one hop from X, and also three hops from X with a larger
    amount; Z is one hop further than Y. *)
Definition poolXY' := mkPool 301 tokX tokY 30 1000000 100000.
Definition poolXW := mkPool 302 tokX tokW 30 1000000 1000000.
Definition poolWV := mkPool 303 tokW tokV 30 1000000 1000000.
Definition poolVY := mkPool 304 tokV tokY 30 1000000 1000000.
Definition poolYZ := mkPool 305 tokY tokZ 30 1000000 1000000.
Definition longWaySnapshot := [poolXY'; poolXW; poolWV; poolVY; poolYZ].

Definition zeroInPool := mkPool 401 tokA tokB 30 0 2000000.
Definition zeroOutPool := mkPool 402 tokA tokB 30 1000000 0.

(** * Properties *)

(** ** Pricing *)

Section Pricing.
Variables (pool : PoolInfo) (inputMint : PublicKey) (amountIn : Z).

Lemma getOutputAmount_not_member :
  inputMint ≠ tokenA pool → inputMint ≠ tokenB pool →
  getOutputAmount pool inputMint amountIn = None.
Proof.
  intros HA HB. unfold getOutputAmount.
  rewrite !bool_decide_eq_false_2 by assumption. reflexivity.
Qed.

Lemma getOutputAmount_member :
  inputMint = tokenA pool ∨ inputMint = tokenB pool →
  getOutputAmount pool inputMint amountIn =
    if denominator pool inputMint amountIn =? 0 then None
    else Some (Z.quot (numerator pool inputMint amountIn)
                      (denominator pool inputMint amountIn)).
Proof.
  intros Hm. unfold getOutputAmount.
  destruct Hm as [Hm | Hm].
  - rewrite (bool_decide_eq_true_2 _ Hm). reflexivity.
  - rewrite (bool_decide_eq_true_2 (inputMint = tokenB pool) Hm).
    rewrite andb_false_r. reflexivity.
Qed.

Lemma PoolInfoState_getOutputAmount_member :
  inputMint = tokenA pool ∨ inputMint = tokenB pool →
  denominator pool inputMint amountIn ≠ 0 →
  PoolInfoState_getOutputAmount pool inputMint amountIn =
    Returns (getOutputAmount pool inputMint amountIn).
Proof.
  intros Hm Hd. rewrite (getOutputAmount_member Hm).
  unfold PoolInfoState_getOutputAmount.
  apply Z.eqb_neq in Hd. rewrite Hd.
  destruct Hm as [Hm | Hm].
  - rewrite (bool_decide_eq_true_2 _ Hm). reflexivity.
  - rewrite (bool_decide_eq_true_2 (inputMint = tokenB pool) Hm).
    rewrite andb_false_r. reflexivity.
Qed.

Lemma reserves_nonneg :
  wf_pool pool → 0 ≤ reserveIn pool inputMint ∧ 0 ≤ reserveOut pool inputMint.
Proof.
  intros (_ & HA & HB). unfold reserveIn, reserveOut.
  destruct (decide (inputMint = tokenA pool)); lia.
Qed.

Lemma numerator_nonneg :
  wf_pool pool → 0 ≤ amountIn → 0 ≤ numerator pool inputMint amountIn.
Proof.
  intros Hwf Ha. destruct (reserves_nonneg Hwf) as [_ Hout].
  destruct Hwf as (Hfee & _). unfold numerator, feeFactor.
  apply Z.mul_nonneg_nonneg; [apply Z.mul_nonneg_nonneg |]; lia.
Qed.

Lemma denominator_nonneg :
  wf_pool pool → 0 ≤ amountIn → 0 ≤ denominator pool inputMint amountIn.
Proof.
  intros Hwf Ha. destruct (reserves_nonneg Hwf) as [Hin _].
  destruct Hwf as (Hfee & _). unfold denominator, feeFactor.
  apply Z.add_nonneg_nonneg; apply Z.mul_nonneg_nonneg; lia.
Qed.

(** On the data model's values the output is never negative. *)
Lemma getOutputAmount_nonneg out :
  wf_pool pool → 0 ≤ amountIn →
  getOutputAmount pool inputMint amountIn = Some out → 0 ≤ out.
Proof.
  intros Hwf Ha. unfold getOutputAmount.
  destruct (_ && _); [discriminate |].
  destruct (Z.eqb_spec (denominator pool inputMint amountIn) 0) as [| Hd];
    [discriminate |].
  intros [= <-].
  pose proof (numerator_nonneg Hwf Ha). pose proof (denominator_nonneg Hwf Ha).
  apply Z.quot_pos; lia.
Qed.
End Pricing.

(** The reserves the code selects at lines 149-150: [reserveA] pays
    in and [reserveB] pays out when the input is [tokenA], the other
    way round when it is [tokenB] only. *)
Lemma reserves_by_side (pool : PoolInfo) (inputMint : PublicKey) (rIn rOut : Z) :
  (inputMint = tokenA pool ∧ rIn = reserveA pool ∧ rOut = reserveB pool)
  ∨ (inputMint ≠ tokenA pool ∧ inputMint = tokenB pool
     ∧ rIn = reserveB pool ∧ rOut = reserveA pool) →
  (inputMint = tokenA pool ∨ inputMint = tokenB pool)
  ∧ reserveIn pool inputMint = rIn
  ∧ reserveOut pool inputMint = rOut.
Proof.
  unfold reserveIn, reserveOut.
  intros [(HA & -> & ->) | (HA & HB & -> & ->)].
  - split; [left; exact HA |].
    destruct (decide (inputMint = tokenA pool)); [auto | contradiction].
  - split; [right; exact HB |].
    destruct (decide (inputMint = tokenA pool)); [contradiction | auto].
Qed.

Lemma getOutputAmount_quot (pool : PoolInfo) (inputMint : PublicKey) (amountIn : Z) :
  inputMint = tokenA pool ∨ inputMint = tokenB pool →
  denominator pool inputMint amountIn ≠ 0 →
  getOutputAmount pool inputMint amountIn =
    Some (Z.quot (numerator pool inputMint amountIn)
                 (denominator pool inputMint amountIn)).
Proof.
  intros Hm Hd. rewrite (getOutputAmount_member _ _ _ Hm).
  apply Z.eqb_neq in Hd. rewrite Hd. reflexivity.
Qed.

(** C3. Exact pricing formula. Let [rIn], [rOut] be the reserves of the
    input asset and of the other asset: [reserveA], [reserveB] when the
    input asset is [tokenA], and [reserveB], [reserveA] when it is
    [tokenB]. Whenever [rIn * 10000 + amountIn * (10000 - feeBps)] is
    nonzero, [getOutputAmount] (in the pathfinder and in the pool state
    alike) returns the truncated quotient of
    [amountIn * (10000 - feeBps) * rOut] by that denominator; on the
    values of the data model (fee in [0, 10000), reserves and amount
    not negative) that is the floor of the quotient, and it is [0] for
    [amountIn = 0]. For an asset that is neither of the pool's two, the
    result is none. *)
Theorem getOutputAmount_exact_formula (pool : PoolInfo) (inputMint : PublicKey)
  (amountIn : Z) :
  (∀ rIn rOut,
     (inputMint = tokenA pool ∧ rIn = reserveA pool ∧ rOut = reserveB pool)
     ∨ (inputMint ≠ tokenA pool ∧ inputMint = tokenB pool
        ∧ rIn = reserveB pool ∧ rOut = reserveA pool) →
     rIn * 10000 + amountIn * (10000 - feeBps pool) ≠ 0 →
     (getOutputAmount pool inputMint amountIn =
        Some (Z.quot (amountIn * (10000 - feeBps pool) * rOut)
                (rIn * 10000 + amountIn * (10000 - feeBps pool)))
      ∧ PoolInfoState_getOutputAmount pool inputMint amountIn =
          Returns (Some (Z.quot (amountIn * (10000 - feeBps pool) * rOut)
                           (rIn * 10000 + amountIn * (10000 - feeBps pool)))))
     ∧ (wf_pool pool → 0 ≤ amountIn →
        getOutputAmount pool inputMint amountIn =
          Some (amountIn * (10000 - feeBps pool) * rOut
                / (rIn * 10000 + amountIn * (10000 - feeBps pool)))
        ∧ PoolInfoState_getOutputAmount pool inputMint amountIn =
            Returns (Some (amountIn * (10000 - feeBps pool) * rOut
                           / (rIn * 10000 + amountIn * (10000 - feeBps pool)))))
     ∧ (amountIn = 0 →
        getOutputAmount pool inputMint amountIn = Some 0
        ∧ PoolInfoState_getOutputAmount pool inputMint amountIn
          = Returns (Some 0)))
  ∧ (inputMint ≠ tokenA pool → inputMint ≠ tokenB pool →
     getOutputAmount pool inputMint amountIn = None
     ∧ PoolInfoState_getOutputAmount pool inputMint amountIn = Returns None).
Proof.
  split.
  - intros rIn rOut Hside Hd.
    destruct (reserves_by_side pool inputMint rIn rOut Hside) as (Hm & HrIn & HrOut).
    assert (Hd' : denominator pool inputMint amountIn ≠ 0)
      by (unfold denominator, feeFactor; rewrite HrIn; exact Hd).
    pose proof (getOutputAmount_quot pool inputMint amountIn Hm Hd') as Hq.
    pose proof (PoolInfoState_getOutputAmount_member pool inputMint amountIn Hm Hd')
      as Hs.
    rewrite Hq in Hs.
    unfold numerator, denominator, feeFactor in Hq, Hs, Hd'.
    rewrite HrIn, HrOut in Hq, Hs.
    split; [split; [exact Hq | exact Hs] |]. split.
    + intros Hwf Ha. rewrite Hq, Hs.
      pose proof (numerator_nonneg pool inputMint amountIn Hwf Ha) as Hn.
      pose proof (denominator_nonneg pool inputMint amountIn Hwf Ha) as Hp.
      unfold numerator, denominator, feeFactor in Hn, Hp.
      rewrite ?HrIn, ?HrOut in Hn, Hp.
      rewrite Z.quot_div_nonneg by lia. split; reflexivity.
    + intros ->. rewrite Hq, Hs. split; reflexivity.
  - intros HA HB. split.
    + apply getOutputAmount_not_member; assumption.
    + unfold PoolInfoState_getOutputAmount.
      rewrite !bool_decide_eq_false_2 by assumption. reflexivity.
Qed.

Lemma getOutputAmount_exact_formula_witness :
  getOutputAmount pool1 tokA 1000 = Some 1992
  ∧ getOutputAmount pool1 tokB 1992 = Some 992
  ∧ PoolInfoState_getOutputAmount pool1 tokB 1992 = Returns (Some 992)
  ∧ getOutputAmount pool1 tokA 0 = Some 0
  ∧ getOutputAmount pool1 tokC 1000 = None.
Proof.
  assert (Hwf : wf_pool pool1) by (unfold wf_pool; simpl; lia).
  destruct (getOutputAmount_exact_formula pool1 tokA 1000) as [HA _].
  destruct (HA 1000000 2000000) as (_ & HfloorA & _);
    [left; repeat split; reflexivity | vm_compute; discriminate |].
  destruct (getOutputAmount_exact_formula pool1 tokB 1992) as [HB _].
  destruct (HB 2000000 1000000) as (_ & HfloorB & _);
    [right; repeat split; try reflexivity; vm_compute; discriminate
    | vm_compute; discriminate |].
  destruct (getOutputAmount_exact_formula pool1 tokA 0) as [H0 _].
  destruct (H0 1000000 2000000) as (_ & _ & Hzero);
    [left; repeat split; reflexivity | vm_compute; discriminate |].
  destruct (getOutputAmount_exact_formula pool1 tokC 1000) as [_ HC].
  split; [apply HfloorA; [exact Hwf | lia] |].
  split; [apply HfloorB; [exact Hwf | lia] |].
  split; [apply HfloorB; [exact Hwf | lia] |].
  split; [apply Hzero; reflexivity |].
  apply HC; vm_compute; discriminate.
Defined.

(** The search skips a hop whose priced output is none or zero. *)
Lemma explorePool_skips (current : PathNode) (vis : gset N)
  (acc : list PathNode * gmap N (Z * Z)) (pool : PoolInfo) :
  getOutputAmount pool (token current) (amountOut current) = None
  ∨ getOutputAmount pool (token current) (amountOut current) = Some 0 →
  explorePool current vis acc pool = acc.
Proof.
  intros H. unfold explorePool.
  destruct (getOtherToken pool (token current)); [| reflexivity].
  destruct (bool_decide _); [reflexivity |].
  destruct H as [-> | ->]; reflexivity.
Qed.

(** C2, as the code has it. Let [rIn], [rOut] be the reserves on the
    input side and on the output side: [reserveA], [reserveB] when the
    input asset is [tokenA], and [reserveB], [reserveA] when it is
    [tokenB]. The pathfinder's [getOutputAmount] returns none exactly
    when the denominator [rIn * 10000 + amountIn * (10000 - feeBps)] is
    zero, as it is when [rIn] and [amountIn] are both zero. With
    [rOut = 0] and a nonzero denominator both [getOutputAmount] methods
    return the amount [0], a hop the search skips; with [rIn = 0] and
    [amountIn * (10000 - feeBps)] nonzero both return the whole
    output-side reserve. *)
Theorem zero_reserve_pricing (pool : PoolInfo) (inputMint : PublicKey) (amountIn : Z)
  (rIn rOut : Z) :
  (inputMint = tokenA pool ∧ rIn = reserveA pool ∧ rOut = reserveB pool)
  ∨ (inputMint ≠ tokenA pool ∧ inputMint = tokenB pool
     ∧ rIn = reserveB pool ∧ rOut = reserveA pool) →
  (getOutputAmount pool inputMint amountIn = None
   ↔ rIn * 10000 + amountIn * (10000 - feeBps pool) = 0)
  ∧ (rIn = 0 → amountIn = 0 → getOutputAmount pool inputMint amountIn = None)
  ∧ (rOut = 0 → rIn * 10000 + amountIn * (10000 - feeBps pool) ≠ 0 →
     getOutputAmount pool inputMint amountIn = Some 0
     ∧ PoolInfoState_getOutputAmount pool inputMint amountIn = Returns (Some 0)
     ∧ ∀ current vis acc,
         token current = inputMint → amountOut current = amountIn →
         explorePool current vis acc pool = acc)
  ∧ (rIn = 0 → amountIn * (10000 - feeBps pool) ≠ 0 →
     getOutputAmount pool inputMint amountIn = Some rOut
     ∧ PoolInfoState_getOutputAmount pool inputMint amountIn
       = Returns (Some rOut)).
Proof.
  intros Hside.
  destruct (reserves_by_side pool inputMint rIn rOut Hside) as (Hm & HrIn & HrOut).
  assert (Hden : denominator pool inputMint amountIn
                 = rIn * 10000 + amountIn * (10000 - feeBps pool))
    by (unfold denominator, feeFactor; rewrite HrIn; reflexivity).
  assert (Hnum : numerator pool inputMint amountIn
                 = amountIn * (10000 - feeBps pool) * rOut)
    by (unfold numerator, feeFactor; rewrite HrOut; reflexivity).
  rewrite <- Hden.
  split; [| split; [| split]].
  - rewrite (getOutputAmount_member _ _ _ Hm).
    destruct (Z.eqb_spec (denominator pool inputMint amountIn) 0) as [E | E].
    + tauto.
    + split; [discriminate | intros; contradiction].
  - intros Hr Ha. rewrite (getOutputAmount_member _ _ _ Hm).
    rewrite Hden, Hr, Ha. reflexivity.
  - intros Hr Hd.
    assert (Hz : getOutputAmount pool inputMint amountIn = Some 0).
    { rewrite (getOutputAmount_quot _ _ _ Hm Hd), Hnum, Hr, Z.mul_0_r.
      rewrite Z.quot_0_l by exact Hd. reflexivity. }
    split; [exact Hz |]. split.
    + rewrite (PoolInfoState_getOutputAmount_member _ _ _ Hm Hd), Hz. reflexivity.
    + intros current vis acc Ht Ha. apply explorePool_skips. right.
      rewrite Ht, Ha. exact Hz.
  - intros Hr Hne.
    assert (Hd : denominator pool inputMint amountIn ≠ 0)
      by (rewrite Hden, Hr; lia).
    assert (Hw : getOutputAmount pool inputMint amountIn = Some rOut).
    { rewrite (getOutputAmount_quot _ _ _ Hm Hd), Hnum, Hden, Hr.
      rewrite Z.mul_0_l, Z.add_0_l. f_equal.
      rewrite Z.mul_comm. apply Z.quot_mul. exact Hne. }
    split; [exact Hw |].
    rewrite (PoolInfoState_getOutputAmount_member _ _ _ Hm Hd), Hw. reflexivity.
Qed.

Lemma zero_reserve_pricing_witness :
  (getOutputAmount zeroOutPool tokA 1000 = Some 0
   ∧ getOutputAmount zeroInPool tokA 1000 = Some 2000000
   ∧ getOutputAmount zeroInPool tokA 0 = None)
  ∧ (getOutputAmount zeroInPool tokB 1000 = Some 0
     ∧ getOutputAmount zeroOutPool tokB 1000 = Some 1000000
     ∧ getOutputAmount zeroOutPool tokB 0 = None).
Proof.
  destruct (zero_reserve_pricing zeroOutPool tokA 1000 1000000 0) as (_ & _ & HoutA & _);
    [left; repeat split; reflexivity |].
  destruct (zero_reserve_pricing zeroInPool tokA 1000 0 2000000) as (_ & _ & _ & HinA);
    [left; repeat split; reflexivity |].
  destruct (zero_reserve_pricing zeroInPool tokA 0 0 2000000) as (_ & HbothA & _);
    [left; repeat split; reflexivity |].
  destruct (zero_reserve_pricing zeroInPool tokB 1000 2000000 0) as (_ & _ & HoutB & _);
    [right; repeat split; try reflexivity; vm_compute; discriminate |].
  destruct (zero_reserve_pricing zeroOutPool tokB 1000 0 1000000) as (_ & _ & _ & HinB);
    [right; repeat split; try reflexivity; vm_compute; discriminate |].
  destruct (zero_reserve_pricing zeroOutPool tokB 0 0 1000000) as (_ & HbothB & _);
    [right; repeat split; try reflexivity; vm_compute; discriminate |].
  split; split; [| split | | split].
  - apply HoutA; [reflexivity | vm_compute; discriminate].
  - apply HinA; [reflexivity | vm_compute; discriminate].
  - apply HbothA; reflexivity.
  - apply HoutB; [reflexivity | vm_compute; discriminate].
  - apply HinB; [reflexivity | vm_compute; discriminate].
  - apply HbothB; reflexivity.
Defined.

(** C2 as stated fails, on either side of a pool: with a zero
    input-side reserve and a positive input both pricing functions
    return the whole output-side reserve, and with a zero output-side
    reserve they return the amount zero. *)
Lemma zero_reserve_not_none :
  (tokenA zeroInPool = tokA ∧ reserveA zeroInPool = 0
   ∧ getOutputAmount zeroInPool tokA 1000 = Some 2000000
   ∧ PoolInfoState_getOutputAmount zeroInPool tokA 1000 = Returns (Some 2000000))
  ∧ (tokenA zeroOutPool = tokA ∧ reserveB zeroOutPool = 0
     ∧ getOutputAmount zeroOutPool tokA 1000 = Some 0
     ∧ PoolInfoState_getOutputAmount zeroOutPool tokA 1000 = Returns (Some 0))
  ∧ (tokenB zeroOutPool = tokB ∧ reserveB zeroOutPool = 0
     ∧ getOutputAmount zeroOutPool tokB 1000 = Some 1000000
     ∧ PoolInfoState_getOutputAmount zeroOutPool tokB 1000 = Returns (Some 1000000))
  ∧ (tokenB zeroInPool = tokB ∧ reserveA zeroInPool = 0
     ∧ getOutputAmount zeroInPool tokB 1000 = Some 0
     ∧ PoolInfoState_getOutputAmount zeroInPool tokB 1000 = Returns (Some 0)).
Proof. vm_compute. repeat split; reflexivity. Qed.

(** ** Routes *)

Lemma routeOutput_snoc hopPools p tok amt t a next out :
  routeOutput hopPools tok amt = Some (t, a) →
  getOtherToken p t = Some next →
  getOutputAmount p t a = Some out →
  routeOutput (hopPools ++ [p]) tok amt = Some (next, out).
Proof.
  revert tok amt. induction hopPools as [| q rest IH]; intros tok amt Hr Ho Hg.
  - simpl in *. injection Hr as -> ->. rewrite Ho, Hg. reflexivity.
  - simpl in *. destruct (getOtherToken q tok); [| discriminate].
    destruct (getOutputAmount q tok amt); [| discriminate].
    apply IH; assumption.
Qed.

Lemma assetSequence_snoc hopPools p tok amt t a next :
  routeOutput hopPools tok amt = Some (t, a) →
  getOtherToken p t = Some next →
  assetSequence (hopPools ++ [p]) tok = assetSequence hopPools tok ++ [next].
Proof.
  revert tok amt. induction hopPools as [| q rest IH]; intros tok amt Hr Ho.
  - simpl in *. injection Hr as -> ->. rewrite Ho. reflexivity.
  - simpl in *. destruct (getOtherToken q tok); [| discriminate].
    destruct (getOutputAmount q tok amt); [| discriminate].
    f_equal. eapply IH; eassumption.
Qed.

Lemma assetSequence_last hopPools tok amt t a :
  routeOutput hopPools tok amt = Some (t, a) →
  last (assetSequence hopPools tok) = Some t
  ∧ length (assetSequence hopPools tok) = S (length hopPools).
Proof.
  revert tok amt. induction hopPools as [| q rest IH]; intros tok amt Hr.
  - simpl in *. injection Hr as -> ->. split; reflexivity.
  - simpl in Hr. change (assetSequence (q :: rest) tok) with
      (tok :: match getOtherToken q tok with
              | Some next => assetSequence rest next
              | None => []
              end).
    destruct (getOtherToken q tok) as [next |]; [| discriminate].
    destruct (getOutputAmount q tok amt) as [out |]; [| discriminate].
    destruct (IH _ _ Hr) as [Hl Hn].
    split; [| simpl; rewrite Hn; reflexivity].
    destruct (assetSequence rest next) eqn:E; [discriminate Hn |].
    exact Hl.
Qed.

(** Amounts stay non-negative along a route over well-formed pools. *)
Lemma routeOutput_nonneg hopPools tok amt t a :
  Forall wf_pool hopPools → 0 ≤ amt →
  routeOutput hopPools tok amt = Some (t, a) → 0 ≤ a.
Proof.
  revert tok amt. induction hopPools as [| q rest IH]; intros tok amt Hwf Ha Hr.
  - simpl in Hr. injection Hr as _ <-. exact Ha.
  - simpl in Hr. apply Forall_cons in Hwf as [Hq Hrest].
    destruct (getOtherToken q tok) as [next |]; [| discriminate].
    destruct (getOutputAmount q tok amt) as [out |] eqn:Hg; [| discriminate].
    eapply IH; [exact Hrest | | exact Hr].
    eapply getOutputAmount_nonneg; eassumption.
Qed.

Lemma findPool_unique (ps : list PoolInfo) (p : PoolInfo) :
  NoDup (address <$> ps) → p ∈ ps → findPool ps (address p) = Some p.
Proof.
  unfold findPool. induction ps as [| q rest IH]; intros Hnd Hin.
  - inversion Hin.
  - simpl in *. apply NoDup_cons in Hnd as [Hq Hrest].
    destruct (bool_decide_reflect (address q = address p)) as [E | E].
    + apply elem_of_cons in Hin as [-> | Hin]; [reflexivity |].
      exfalso. apply Hq. rewrite E. apply list_elem_of_fmap. exists p. auto.
    + apply elem_of_cons in Hin as [-> | Hin]; [contradiction |].
      apply IH; assumption.
Qed.

Lemma findPool_member (ps : list PoolInfo) (p : PoolInfo) :
  p ∈ ps → ∃ q, findPool ps (address p) = Some q ∧ q ∈ ps ∧ address q = address p.
Proof.
  unfold findPool. induction ps as [| q rest IH]; intros Hin.
  - inversion Hin.
  - simpl. destruct (bool_decide_reflect (address q = address p)) as [E | E].
    + exists q. split; [reflexivity |]. split; [left | exact E].
    + apply elem_of_cons in Hin as [-> | Hin]; [contradiction |].
      destruct (IH Hin) as (r & Hf & Hr & Ha).
      exists r. split; [exact Hf |]. split; [right; exact Hr | exact Ha].
Qed.

(** With unique pool identifiers, the identifiers of a route resolve to
    the pools it was built from. *)
Lemma impliedAssets_resolves (ps hopPools : list PoolInfo) tok amt t a :
  NoDup (address <$> ps) →
  Forall (λ p, p ∈ ps) hopPools →
  routeOutput hopPools tok amt = Some (t, a) →
  impliedAssets ps tok (address <$> hopPools) = Some (assetSequence hopPools tok).
Proof.
  intros Hnd. revert tok amt.
  induction hopPools as [| q rest IH]; intros tok amt Hall Hr.
  - reflexivity.
  - apply Forall_cons in Hall as [Hq Hrest].
    rewrite fmap_cons. cbn [impliedAssets routeOutput assetSequence] in Hr |- *.
    rewrite (findPool_unique ps q Hnd Hq).
    destruct (getOtherToken q tok) as [next |]; [| discriminate].
    destruct (getOutputAmount q tok amt) as [out |]; [| discriminate].
    rewrite (IH _ _ Hrest Hr). reflexivity.
Qed.

(** ** The open set *)

Lemma sortInsert_perm x l : sortInsert x l ≡ₚ x :: l.
Proof.
  induction l as [| y l IH]; simpl; [reflexivity |].
  destruct (compareNodes x y <=? 0); [reflexivity |].
  rewrite IH. apply Permutation_swap.
Qed.

Lemma sortNodes_perm l : sortNodes l ≡ₚ l.
Proof.
  induction l as [| x l IH]; simpl; [reflexivity |].
  rewrite sortInsert_perm, IH. reflexivity.
Qed.

Lemma weight_pos npools k : (1 ≤ weight npools k)%nat.
Proof. destruct k; simpl; lia. Qed.

(** ** Invariant of the search *)

Section Search.
Variables (pf : AStarPathfinder) (inputMint outputMint : PublicKey) (amountIn : Z).

Lemma nodeOk_mono vis vis' n : vis ⊆ vis' → nodeOk pf inputMint amountIn vis n → nodeOk pf inputMint amountIn vis' n.
Proof.
  intros Hsub [hp H]. exists hp. destruct H. constructor; try assumption.
  intros t Ht. destruct (rb_visited0 t Ht) as [-> | Hv]; [left | right]; auto.
Qed.

Lemma nodeOk_valid vis n :
  nodeOk pf inputMint amountIn vis n → token n = outputMint →
  validRoute pf inputMint outputMint amountIn {| route := path n; route_amountOut := amountOut n |}.
Proof.
  intros [hp H] Ht. destruct H. exists hp. simpl.
  rewrite <- Ht, <- rb_hops0. auto 10.
Qed.

Lemma initial_invariant : invariant pf inputMint outputMint amountIn (initialState inputMint amountIn).
Proof.
  constructor; simpl; [| discriminate].
  apply Forall_singleton. exists []. constructor; simpl; try done.
  - apply NoDup_singleton.
  - intros t Ht. apply list_elem_of_singleton in Ht. left. exact Ht.
  - lia.
Qed.

Lemma explorePool_ok current vis acc pool :
  nodeOk pf inputMint amountIn vis current → token current ∈ vis → hops current < maxHops pf →
  pool ∈ pools pf →
  Forall (nodeOk pf inputMint amountIn vis) acc.1 →
  Forall (nodeOk pf inputMint amountIn vis) (explorePool current vis acc pool).1.
Proof.
  intros [hp H] Hcur Hlt Hpool Hacc. unfold explorePool.
  destruct (getOtherToken pool (token current)) as [next |] eqn:Ho; [| exact Hacc].
  destruct (bool_decide_reflect (next ∈ vis)) as [| Hnv]; [exact Hacc |].
  destruct (getOutputAmount pool (token current) (amountOut current))
    as [out |] eqn:Hg; [| exact Hacc].
  destruct (Z.eqb_spec out 0) as [| Hnz]; [exact Hacc |].
  destruct (shouldExplore _ _ _); [| exact Hacc].
  simpl. apply Forall_app. split; [exact Hacc |].
  apply Forall_singleton. exists (hp ++ [pool]). destruct H.
  assert (Hseq : assetSequence (hp ++ [pool]) inputMint
                 = assetSequence hp inputMint ++ [next])
    by (eapply assetSequence_snoc; eassumption).
  assert (Hold : ∀ t, t ∈ assetSequence hp inputMint → t ∈ vis).
  { intros t Ht. destruct (rb_visited0 t Ht) as [-> | Hv]; assumption. }
  constructor; simpl.
  - apply Forall_app. split; [assumption |]. apply Forall_singleton. exact Hpool.
  - rewrite rb_path0, fmap_app. reflexivity.
  - rewrite rb_hops0, length_app. simpl. lia.
  - eapply routeOutput_snoc; eassumption.
  - rewrite Hseq. apply NoDup_app. split; [assumption |].
    split; [| apply NoDup_singleton].
    intros t Ht Hn. apply list_elem_of_singleton in Hn. subst t.
    apply Hnv. apply Hold. exact Ht.
  - intros t Ht. rewrite Hseq in Ht. apply elem_of_app in Ht as [Ht | Ht].
    + right. apply Hold. exact Ht.
    + left. apply list_elem_of_singleton in Ht. exact Ht.
  - intros _. exact Hnz.
  - lia.
Qed.

Lemma explore_ok current vis l acc :
  nodeOk pf inputMint amountIn vis current → token current ∈ vis → hops current < maxHops pf →
  Forall (λ p, p ∈ pools pf) l →
  Forall (nodeOk pf inputMint amountIn vis) acc.1 →
  Forall (nodeOk pf inputMint amountIn vis) (foldl (explorePool current vis) acc l).1.
Proof.
  intros Hn Hcur Hlt. revert acc.
  induction l as [| p l IH]; intros acc Hl Hacc; [exact Hacc |].
  apply Forall_cons in Hl as [Hp Hl]. simpl. apply IH; [exact Hl |].
  apply explorePool_ok; assumption.
Qed.

Lemma updateSolution_ok vis current bs :
  nodeOk pf inputMint amountIn vis current → token current = outputMint →
  (∀ s, bs = Some s → validRoute pf inputMint outputMint amountIn s) →
  ∀ s, updateSolution current bs = Some s → validRoute pf inputMint outputMint amountIn s.
Proof.
  intros Hn Ht Hbs s. unfold updateSolution.
  destruct bs as [s0 |].
  - destruct (amountOut current >? route_amountOut s0).
    + intros [= <-]. eapply nodeOk_valid; eassumption.
    + apply Hbs.
  - intros [= <-]. eapply nodeOk_valid; eassumption.
Qed.

Lemma processNode_invariant current rest st :
  nodeOk pf inputMint amountIn (visited st) current → Forall (nodeOk pf inputMint amountIn (visited st)) rest →
  (∀ s, bestSolution st = Some s → validRoute pf inputMint outputMint amountIn s) →
  invariant pf inputMint outputMint amountIn (processNode pf outputMint current rest st).
Proof.
  intros Hcur Hrest Hsol. unfold processNode.
  destruct (isStale _ _); [constructor; assumption |].
  destruct (bool_decide_reflect (token current = outputMint)) as [Ht |].
  { constructor; simpl; [assumption |].
    eapply updateSolution_ok; eassumption. }
  destruct (Z.geb_spec (hops current) (maxHops pf)) as [| Hlt];
    [constructor; assumption |].
  assert (Hsub : visited st ⊆ visited st ∪ {[token current]}) by set_solver.
  constructor; simpl; [| assumption].
  apply explore_ok.
  - eapply nodeOk_mono; eassumption.
  - set_solver.
  - lia.
  - apply Forall_forall. auto.
  - simpl. eapply Forall_impl; [exact Hrest |].
    intros nd. apply nodeOk_mono. exact Hsub.
Qed.

Lemma step_invariant st : invariant pf inputMint outputMint amountIn st → invariant pf inputMint outputMint amountIn (step pf outputMint st).
Proof.
  intros Hinv. unfold step.
  destruct (sortNodes (openSet st)) as [| current rest] eqn:Hs; [exact Hinv |].
  destruct Hinv as [Hopen Hsol].
  rewrite <- (sortNodes_perm (openSet st)), Hs in Hopen.
  apply Forall_cons in Hopen as [Hc Hr].
  apply processNode_invariant; assumption.
Qed.

Lemma searchLoop_valid fuel st r s :
  invariant pf inputMint outputMint amountIn st → searchLoop pf outputMint fuel st = Some r → r = Some s →
  validRoute pf inputMint outputMint amountIn s.
Proof.
  revert st. induction fuel as [| fuel IH]; intros st Hinv Hrun Hr; simpl in Hrun.
  - destruct (openSet st); [| discriminate].
    injection Hrun as <-. destruct Hinv as [_ Hsol]. apply Hsol. exact Hr.
  - destruct (openSet st) eqn:Ho.
    + injection Hrun as <-. destruct Hinv as [_ Hsol]. apply Hsol. exact Hr.
    + eapply IH; [| exact Hrun | exact Hr]. apply step_invariant. exact Hinv.
Qed.

(** *** Termination *)

Lemma measure_perm l l' : l ≡ₚ l' → measure pf l = measure pf l'.
Proof. intros H. unfold measure. rewrite H. reflexivity. Qed.

Lemma measure_app l l' : measure pf (l ++ l') = (measure pf l + measure pf l')%nat.
Proof. unfold measure. apply sum_list_with_app. Qed.

Lemma explorePool_measure current vis acc pool k :
  hopsLeft pf current = S k →
  (measure pf (explorePool current vis acc pool).1
   ≤ measure pf acc.1 + weight (length (pools pf)) k)%nat.
Proof.
  intros Hk. unfold explorePool.
  destruct (getOtherToken pool (token current)); [| lia].
  destruct (bool_decide _); [lia |].
  destruct (getOutputAmount _ _ _); [| lia].
  destruct (_ =? 0); [lia |].
  destruct (shouldExplore _ _ _); [| lia].
  simpl. rewrite measure_app. unfold measure at 2. simpl.
  unfold hopsLeft in *. simpl.
  replace (Z.to_nat (maxHops pf - (hops current + 1))) with k by lia. lia.
Qed.

Lemma explore_measure current vis l acc k :
  hopsLeft pf current = S k →
  (measure pf (foldl (explorePool current vis) acc l).1
   ≤ measure pf acc.1 + length l * weight (length (pools pf)) k)%nat.
Proof.
  intros Hk. revert acc. induction l as [| p l IH]; intros acc; simpl; [lia |].
  etransitivity; [apply IH |].
  pose proof (explorePool_measure current vis acc p k Hk). lia.
Qed.

Lemma processNode_measure current rest st :
  (measure pf (openSet (processNode pf outputMint current rest st))
   < measure pf (current :: rest))%nat.
Proof.
  assert (Hrest : (measure pf rest < measure pf (current :: rest))%nat).
  { unfold measure. simpl.
    pose proof (weight_pos (length (pools pf)) (hopsLeft pf current)). lia. }
  unfold processNode.
  destruct (isStale _ _); [exact Hrest |].
  destruct (bool_decide _); [exact Hrest |].
  destruct (Z.geb_spec (hops current) (maxHops pf)) as [| Hlt]; [exact Hrest |].
  cbn [openSet].
  destruct (hopsLeft pf current) as [| k] eqn:Hk;
    [unfold hopsLeft in Hk; lia |].
  pose proof (explore_measure current (visited st ∪ {[token current]})
                (pools pf) (rest, bestRoutes st) k Hk) as Hm.
  simpl in Hm.
  assert (Hc : measure pf (current :: rest)
               = (weight (length (pools pf)) (S k) + measure pf rest)%nat)
    by (unfold measure; simpl; rewrite Hk; reflexivity).
  rewrite Hc. simpl. lia.
Qed.

Lemma step_measure st :
  openSet st ≠ [] →
  (measure pf (openSet (step pf outputMint st)) < measure pf (openSet st))%nat.
Proof.
  intros Hne. unfold step.
  destruct (sortNodes (openSet st)) as [| current rest] eqn:Hs.
  - exfalso. apply Hne. apply Permutation_nil_r.
    rewrite <- Hs. symmetry. apply sortNodes_perm.
  - rewrite <- (measure_perm _ _ (sortNodes_perm (openSet st))), Hs.
    apply processNode_measure.
Qed.

(** With fuel for the measure of the open set the loop runs to its
    end. *)
Lemma searchLoop_terminates fuel st :
  (measure pf (openSet st) ≤ fuel)%nat →
  ∃ r, searchLoop pf outputMint fuel st = Some r.
Proof.
  revert st. induction fuel as [| fuel IH]; intros st Hm; simpl.
  - destruct (openSet st) as [| n l] eqn:Ho; [eauto |].
    exfalso. unfold measure in Hm. simpl in Hm.
    pose proof (weight_pos (length (pools pf)) (hopsLeft pf n)). lia.
  - destruct (openSet st) as [| n l] eqn:Ho; [eauto |].
    apply IH.
    assert (Hne : openSet st ≠ []) by (rewrite Ho; discriminate).
    pose proof (step_measure st Hne) as Hlt. rewrite Ho in Hlt. lia.
Qed.

(** More fuel does not change a result. *)
Lemma searchLoop_fuel_mono fuel fuel' st r :
  (fuel ≤ fuel')%nat →
  searchLoop pf outputMint fuel st = Some r →
  searchLoop pf outputMint fuel' st = Some r.
Proof.
  revert fuel' st. induction fuel as [| fuel IH]; intros fuel' st Hle Hrun.
  - simpl in Hrun. destruct (openSet st) eqn:Ho; [| discriminate].
    destruct fuel'; simpl; rewrite Ho; exact Hrun.
  - destruct fuel' as [| fuel']; [lia |].
    simpl in *. destruct (openSet st); [exact Hrun |].
    apply IH; [lia | exact Hrun].
Qed.

(** [findOptimalRoute] is the result of the loop for any fuel from
    [enoughFuel] on: the search terminates and never returns for lack
    of fuel. *)
Lemma findOptimalRoute_total fuel :
  (enoughFuel pf ≤ fuel)%nat →
  findOptimalRoute_fuel fuel pf inputMint outputMint amountIn
  = Some (findOptimalRoute pf inputMint outputMint amountIn).
Proof.
  intros Hle. unfold findOptimalRoute, findOptimalRoute_fuel.
  destruct (decide (inputMint = outputMint)); [reflexivity |].
  destruct (searchLoop_terminates (enoughFuel pf) (initialState inputMint amountIn))
    as [r Hr].
  { unfold measure, initialState, hopsLeft, enoughFuel. simpl.
    rewrite Z.sub_0_r. lia. }
  rewrite Hr. eapply searchLoop_fuel_mono; eassumption.
Qed.

Lemma findOptimalRoute_valid s :
  findOptimalRoute pf inputMint outputMint amountIn = Some s → validRoute pf inputMint outputMint amountIn s.
Proof.
  unfold findOptimalRoute, findOptimalRoute_fuel.
  destruct (decide (inputMint = outputMint)); [discriminate |].
  destruct (searchLoop _ _ _ _) as [r |] eqn:Hrun; [| discriminate].
  intros ->. eapply searchLoop_valid; [apply initial_invariant | exact Hrun |].
  reflexivity.
Qed.

Lemma findOptimalRoute_distinct s :
  findOptimalRoute pf inputMint outputMint amountIn = Some s →
  inputMint ≠ outputMint.
Proof.
  unfold findOptimalRoute, findOptimalRoute_fuel.
  destruct (decide (inputMint = outputMint)); [discriminate | auto].
Qed.
End Search.

(** ** Consequences for [findOptimalRoute] *)

Lemma validRoute_nonempty (inputMint outputMint : PublicKey) (amountIn : Z)
  (s : RouteAmount) (hopPools : list PoolInfo) :
  inputMint ≠ outputMint →
  routeOutput hopPools inputMint amountIn = Some (outputMint, route_amountOut s) →
  hopPools ≠ [].
Proof.
  intros Hne Hr ->. simpl in Hr. injection Hr as E _. contradiction.
Qed.

Lemma findOptimalRoute_none_total pf inputMint outputMint amountIn :
  findOptimalRoute pf inputMint outputMint amountIn = None →
  ∀ fuel, (enoughFuel pf ≤ fuel)%nat →
    findOptimalRoute_fuel fuel pf inputMint outputMint amountIn = Some None.
Proof.
  intros Hn fuel Hle. rewrite findOptimalRoute_total by exact Hle.
  rewrite Hn. reflexivity.
Qed.

(** No route comes back when the enforced bound is below one. *)
Lemma findOptimalRoute_no_hops pf inputMint outputMint amountIn :
  maxHops pf < 1 → findOptimalRoute pf inputMint outputMint amountIn = None.
Proof.
  intros Hlt.
  destruct (findOptimalRoute pf inputMint outputMint amountIn) as [s |] eqn:Hf;
    [| reflexivity].
  exfalso.
  pose proof (findOptimalRoute_distinct _ _ _ _ _ Hf) as Hne.
  destruct (findOptimalRoute_valid _ _ _ _ _ Hf) as (hp & _ & _ & Hlen & Hr & _).
  apply (validRoute_nonempty _ _ _ _ _ Hne) in Hr.
  destruct hp; [contradiction | simpl in Hlen; lia].
Qed.

(** C4, as the code has it. The enforced bound is [min(maxHops, 5)]:
    it never exceeds 5, a request of 5 or more behaves exactly as 5,
    and a request in [1,5] is kept. A request below 1 is kept too, not
    raised to 1: the constructor does not fail, and the search then
    returns none for every input. *)
Theorem maxHops_upper_clamp (ps : list PoolInfo) (h : Z) :
  maxHops (newAStarPathfinder ps h) = Z.min h 5
  ∧ maxHops (newAStarPathfinder ps h) ≤ 5
  ∧ (5 ≤ h → ∀ i o a,
       findOptimalRoute (newAStarPathfinder ps h) i o a
       = findOptimalRoute (newAStarPathfinder ps 5) i o a)
  ∧ (1 ≤ h ≤ 5 → maxHops (newAStarPathfinder ps h) = h)
  ∧ (h < 1 →
       maxHops (newAStarPathfinder ps h) = h
       ∧ ∀ i o a,
           findOptimalRoute (newAStarPathfinder ps h) i o a = None
           ∧ ∀ fuel, (enoughFuel (newAStarPathfinder ps h) ≤ fuel)%nat →
               findOptimalRoute_fuel fuel (newAStarPathfinder ps h) i o a
               = Some None).
Proof.
  unfold newAStarPathfinder at 1 2 4 5. simpl.
  split; [reflexivity |]. split; [lia |]. split; [| split].
  - intros Hh i o a. unfold newAStarPathfinder.
    replace (Z.min h 5) with (Z.min 5 5) by lia. reflexivity.
  - lia.
  - intros Hh. split; [lia |]. intros i o a.
    assert (Hn : findOptimalRoute (newAStarPathfinder ps h) i o a = None)
      by (apply findOptimalRoute_no_hops; simpl; lia).
    split; [exact Hn |]. apply findOptimalRoute_none_total. exact Hn.
Qed.

Lemma maxHops_upper_clamp_witness :
  findOptimalRoute (newAStarPathfinder [pool1; pool2] 9) tokA tokC 1000
  = findOptimalRoute (newAStarPathfinder [pool1; pool2] 5) tokA tokC 1000
  ∧ maxHops (newAStarPathfinder [pool1; pool2] 2) = 2
  ∧ findOptimalRoute (newAStarPathfinder [pool1; pool2] (-1)) tokA tokC 1000 = None.
Proof.
  split; [| split].
  - destruct (maxHops_upper_clamp [pool1; pool2] 9) as (_ & _ & H & _).
    apply H. lia.
  - destruct (maxHops_upper_clamp [pool1; pool2] 2) as (_ & _ & _ & H & _).
    apply H. lia.
  - destruct (maxHops_upper_clamp [pool1; pool2] (-1)) as (_ & _ & _ & _ & H).
    destruct H as [_ H]; [lia |]. apply H.
Defined.

(** C4 as stated fails: a request of 0 is enforced as 0, outside
    [1,5], and does not behave as a request of 1. *)
Lemma maxHops_zero_not_raised :
  maxHops (newAStarPathfinder [pool1] 0) = 0
  ∧ findOptimalRoute (newAStarPathfinder [pool1] 0) tokA tokB 1000 = None
  ∧ findOptimalRoute (newAStarPathfinder [pool1] 1) tokA tokB 1000
    = Some {| route := [address pool1]; route_amountOut := 1992 |}.
Proof. vm_compute. repeat split; reflexivity. Qed.

(** C5. Hop budget. A route returned under [maxHops = h] has at most
    [h] pools; and when every trade from the input asset to the output
    asset takes two pools or more, the search under [maxHops = 1]
    terminates with none. *)
Theorem hop_budget_respected (ps : list PoolInfo) (h : Z)
  (inputMint outputMint : PublicKey) (amountIn : Z) :
  (∀ s, findOptimalRoute (newAStarPathfinder ps h) inputMint outputMint amountIn
        = Some s →
        Z.of_nat (length (route s)) ≤ h)
  ∧ (h = 1 →
     (∀ hopPools out,
        Forall (λ p, p ∈ ps) hopPools →
        routeOutput hopPools inputMint amountIn = Some (outputMint, out) →
        (2 ≤ length hopPools)%nat) →
     findOptimalRoute (newAStarPathfinder ps h) inputMint outputMint amountIn = None
     ∧ ∀ fuel, (enoughFuel (newAStarPathfinder ps h) ≤ fuel)%nat →
         findOptimalRoute_fuel fuel (newAStarPathfinder ps h)
           inputMint outputMint amountIn = Some None).
Proof.
  split.
  - intros s Hf.
    pose proof (findOptimalRoute_distinct _ _ _ _ _ Hf) as Hne.
    destruct (findOptimalRoute_valid _ _ _ _ _ Hf)
      as (hp & _ & Hroute & Hlen & Hr & _).
    apply (validRoute_nonempty _ _ _ _ _ Hne) in Hr.
    rewrite Hroute, length_fmap. simpl in Hlen.
    destruct hp; [contradiction | simpl in *; lia].
  - intros -> Hfar.
    assert (Hn : findOptimalRoute (newAStarPathfinder ps 1)
                   inputMint outputMint amountIn = None).
    { destruct (findOptimalRoute _ _ _ _) as [s |] eqn:Hf; [| reflexivity].
      exfalso.
      destruct (findOptimalRoute_valid _ _ _ _ _ Hf)
        as (hp & Hall & _ & Hlen & Hr & _).
      specialize (Hfar hp _ Hall Hr). simpl in Hlen. lia. }
    split; [exact Hn |]. apply findOptimalRoute_none_total. exact Hn.
Qed.

Lemma two_hops_needed (hopPools : list PoolInfo) (out : Z) :
  Forall (λ p, p ∈ [pool1; pool2]) hopPools →
  routeOutput hopPools tokA 1000 = Some (tokC, out) →
  (2 ≤ length hopPools)%nat.
Proof.
  intros Hall Hr. destruct hopPools as [| p [| q rest]]; [| | simpl; lia].
  - simpl in Hr. discriminate Hr.
  - exfalso. apply Forall_cons in Hall as [Hp _].
    apply elem_of_cons in Hp as [-> | Hp];
      [| apply elem_of_cons in Hp as [-> | Hp]; [| inversion Hp]];
      vm_compute in Hr; discriminate Hr.
Qed.

Lemma hop_budget_respected_witness :
  (Z.of_nat (length [address pool1; address pool2]) ≤ 3)
  ∧ findOptimalRoute (newAStarPathfinder [pool1; pool2] 1) tokA tokC 1000 = None.
Proof.
  split.
  - destruct (hop_budget_respected [pool1; pool2] 3 tokA tokC 1000) as [H _].
    apply (H {| route := [address pool1; address pool2]; route_amountOut := 2976 |}).
    vm_compute. reflexivity.
  - destruct (hop_budget_respected [pool1; pool2] 1 tokA tokC 1000) as [_ H].
    apply H; [reflexivity | apply two_hops_needed].
Defined.

(** C6. Route simplicity. A returned route is the list of identifiers
    of snapshot pools whose implied asset sequence, from the input
    asset through each pool's other asset, has one asset more than the
    route has pools, ends at the output asset and repeats no asset.
    When the snapshot's pool identifiers are unique, this is the
    sequence obtained by resolving the route's identifiers. *)
Theorem returned_route_simple (ps : list PoolInfo) (h : Z)
  (inputMint outputMint : PublicKey) (amountIn : Z) (s : RouteAmount) :
  findOptimalRoute (newAStarPathfinder ps h) inputMint outputMint amountIn = Some s →
  (∃ hopPools,
     Forall (λ p, p ∈ ps) hopPools
     ∧ route s = address <$> hopPools
     ∧ length (assetSequence hopPools inputMint) = S (length (route s))
     ∧ head (assetSequence hopPools inputMint) = Some inputMint
     ∧ last (assetSequence hopPools inputMint) = Some outputMint
     ∧ NoDup (assetSequence hopPools inputMint))
  ∧ (NoDup (address <$> ps) →
     ∃ assets,
       impliedAssets ps inputMint (route s) = Some assets
       ∧ length assets = S (length (route s))
       ∧ head assets = Some inputMint
       ∧ last assets = Some outputMint
       ∧ NoDup assets).
Proof.
  intros Hf.
  destruct (findOptimalRoute_valid _ _ _ _ _ Hf)
    as (hp & Hall & Hroute & _ & Hr & Hnd & _).
  destruct (assetSequence_last _ _ _ _ _ Hr) as [Hlast Hlen].
  assert (Hhead : head (assetSequence hp inputMint) = Some inputMint)
    by (destruct hp; reflexivity).
  assert (Hlen' : length (assetSequence hp inputMint) = S (length (route s)))
    by (rewrite Hroute, length_fmap; exact Hlen).
  split.
  - exists hp. auto 10.
  - intros Huniq. exists (assetSequence hp inputMint).
    rewrite Hroute at 1.
    rewrite (impliedAssets_resolves ps hp _ _ _ _ Huniq Hall Hr). auto 10.
Qed.

Lemma returned_route_simple_witness :
  ∃ assets,
    impliedAssets [pool1; pool2; pool3] tokA [address pool1; address pool2]
    = Some assets
    ∧ NoDup assets.
Proof.
  destruct (returned_route_simple [pool1; pool2; pool3] 3 tokA tokC 10000
              {| route := [address pool1; address pool2]; route_amountOut := 29237 |})
    as [_ H]; [vm_compute; reflexivity |].
  destruct H as (assets & Hi & _ & _ & _ & Hnd).
  - apply (bool_decide_unpack _). vm_compute. exact I.
  - exists assets. split; assumption.
Defined.

(** C10. A returned route is not empty and its amount is not zero; on
    the values of the data model (fee in [0, 10000), reserves and input
    amount not negative) the amount is strictly positive. *)
Theorem returned_route_nonempty_positive (ps : list PoolInfo) (h : Z)
  (inputMint outputMint : PublicKey) (amountIn : Z) (s : RouteAmount) :
  findOptimalRoute (newAStarPathfinder ps h) inputMint outputMint amountIn = Some s →
  route s ≠ []
  ∧ route_amountOut s ≠ 0
  ∧ (Forall wf_pool ps → 0 ≤ amountIn → 0 < route_amountOut s).
Proof.
  intros Hf.
  pose proof (findOptimalRoute_distinct _ _ _ _ _ Hf) as Hne.
  destruct (findOptimalRoute_valid _ _ _ _ _ Hf)
    as (hp & Hall & Hroute & _ & Hr & _ & Hnz).
  pose proof (validRoute_nonempty _ _ _ _ _ Hne Hr) as Hhp.
  specialize (Hnz Hhp).
  split; [| split; [exact Hnz |]].
  - rewrite Hroute. destruct hp; [contradiction | discriminate].
  - intros Hwf Ha.
    assert (0 ≤ route_amountOut s); [| lia].
    eapply routeOutput_nonneg; [| exact Ha | exact Hr].
    simpl in Hall. rewrite Forall_forall in Hall, Hwf |- *. auto.
Qed.

Lemma returned_route_nonempty_positive_witness :
  [address pool1; address pool2] ≠ [] ∧ 0 < 2976.
Proof.
  destruct (returned_route_nonempty_positive [pool1; pool2] 3 tokA tokC 1000
              {| route := [address pool1; address pool2]; route_amountOut := 2976 |})
    as (Hne & _ & Hpos); [vm_compute; reflexivity |].
  split; [exact Hne |].
  apply Hpos; [| lia].
  repeat (apply Forall_cons; split; [unfold wf_pool; simpl; lia |]).
  apply Forall_nil_2.
Defined.

(** ** The quote calculator *)

Lemma fee_loop amountIn ps r acc :
  foldl (addFee amountIn ps) acc r = acc + sumZ (flatHopFee amountIn ps <$> r).
Proof.
  revert acc. induction r as [| a r IH]; intros acc.
  - unfold sumZ. simpl. lia.
  - rewrite fmap_cons. cbn [foldl]. rewrite IH.
    unfold sumZ. cbn [foldr]. unfold addFee, flatHopFee.
    destruct (findPool ps a); lia.
Qed.

Lemma getSwapQuote_inv inputMint outputMint amountIn ps h q :
  getSwapQuote inputMint outputMint amountIn ps h = Some q →
  ∃ s, findOptimalRoute (newAStarPathfinder ps h) inputMint outputMint amountIn = Some s
       ∧ q = {| inputAmount := amountIn;
                outputAmount := route_amountOut s;
                priceImpact := 0%Q;
                fee := foldl (addFee amountIn ps) 0 (route s);
                quote_route := route s |}.
Proof.
  unfold getSwapQuote.
  destruct (findOptimalRoute _ _ _ _) as [s |]; [| discriminate].
  intros [= <-]. exists s. split; reflexivity.
Qed.

(** C7, as the code has it. The fee of a quote is the sum over the
    route's pool identifiers of [amountIn * feeBps / 10000] (truncated),
    where [amountIn] is the amount given to [getSwapQuote] at every hop
    and [feeBps] is that of the first snapshot pool carrying the
    identifier; every identifier of the route resolves to such a pool. *)
Theorem quote_fee_flat (inputMint outputMint : PublicKey) (amountIn : Z)
  (ps : list PoolInfo) (h : Z) (q : SwapQuote) :
  getSwapQuote inputMint outputMint amountIn ps h = Some q →
  Forall (λ a, ∃ pool, findPool ps a = Some pool ∧ pool ∈ ps ∧ address pool = a)
    (quote_route q)
  ∧ fee q = sumZ ((λ a, match findPool ps a with
                        | Some pool => Z.quot (amountIn * feeBps pool) 10000
                        | None => 0
                        end) <$> quote_route q).
Proof.
  intros Hq. destruct (getSwapQuote_inv _ _ _ _ _ _ Hq) as (s & Hf & ->). simpl.
  split.
  - destruct (findOptimalRoute_valid _ _ _ _ _ Hf) as (hp & Hall & -> & _).
    simpl in Hall. apply Forall_fmap. eapply Forall_impl; [exact Hall |].
    intros p Hp. simpl. apply findPool_member. exact Hp.
  - rewrite fee_loop. reflexivity.
Qed.

Lemma quote_fee_flat_witness :
  fee {| inputAmount := 1000; outputAmount := 2976; priceImpact := 0%Q;
         fee := 6; quote_route := [address pool1; address pool2] |}
  = Z.quot (1000 * 30) 10000 + (Z.quot (1000 * 30) 10000 + 0).
Proof.
  destruct (quote_fee_flat tokA tokC 1000 [pool1; pool2] 3
              {| inputAmount := 1000; outputAmount := 2976; priceImpact := 0%Q;
                 fee := 6; quote_route := [address pool1; address pool2] |})
    as [_ H]; [vm_compute; reflexivity |].
  exact H.
Defined.

(** C7 as stated fails: on the two-hop route of the test suite the
    quote's fee is 3 + 3, while the replay charges the second hop on
    the 1992 that enter it: 3 + 5. *)
Lemma quote_fee_not_per_hop_input :
  ∃ q, getSwapQuote tokA tokC 1000 [pool1; pool2] 3 = Some q
       ∧ quote_route q = [address pool1; address pool2]
       ∧ fee q = 6
       ∧ spec_totalFee [pool1; pool2] tokA 1000 (quote_route q) = 8.
Proof.
  eexists. split; [vm_compute; reflexivity |].
  vm_compute. repeat split; reflexivity.
Qed.

Lemma getSwapQuote_priceImpact inputMint outputMint amountIn ps h q :
  getSwapQuote inputMint outputMint amountIn ps h = Some q → priceImpact q = 0%Q.
Proof.
  intros Hq. destruct (getSwapQuote_inv _ _ _ _ _ _ Hq) as (s & _ & ->).
  reflexivity.
Qed.

(** C8. [getSwapQuote] sets [priceImpact] to the constant [0]. For the
    single pool of the test suite (reserves 1,000,000 / 2,000,000, fee
    30) and an input of 1000 the output is 1992: the shortfall of the
    realized price against the spot price is 0.4 percent, which is also
    what [calculatePriceImpact] computes (4000 units of 1e-4 percent),
    and the quote reports 0. *)
Theorem quote_priceImpact_is_zero :
  ∃ q, getSwapQuote tokA tokB 1000 [pool1] 3 = Some q
       ∧ quote_route q = [address pool1]
       ∧ outputAmount q = 1992
       ∧ priceImpact q = 0%Q
       ∧ Qeq (spec_priceImpact (reserveA pool1) (reserveB pool1) 1000
                (outputAmount q)) (2 # 5)
       ∧ calculatePriceImpact_impact (reserveA pool1) (reserveB pool1) 1000
           (outputAmount q) = Returns 4000.
Proof.
  eexists. split; [vm_compute; reflexivity |].
  vm_compute. repeat split; reflexivity.
Qed.

(** ** Optimality *)

(** C1. In [detourSnapshot] with the default bound of 3 hops the search
    returns the route X-T-Z with output 98, while the simple three-hop
    route X-Y-T-Z through pools of the snapshot has output 44376: T was
    expanded with the 99 of the direct hop before the 46577 arriving
    through Y were known, and a visited asset is never entered again. *)
Theorem search_misses_better_route :
  findOptimalRoute_fuel (enoughFuel (newAStarPathfinder detourSnapshot defaultMaxHops))
    (newAStarPathfinder detourSnapshot defaultMaxHops) tokX tokZ 1000
  = Some (Some {| route := [address poolXT; address poolTZ]; route_amountOut := 98 |})
  ∧ findOptimalRoute (newAStarPathfinder detourSnapshot defaultMaxHops) tokX tokZ 1000
    = Some {| route := [address poolXT; address poolTZ]; route_amountOut := 98 |}
  ∧ Forall (λ p, p ∈ detourSnapshot ∧ wf_pool p) [poolXY; poolYT; poolTZ]
  ∧ (Z.of_nat (length [poolXY; poolYT; poolTZ])
     ≤ maxHops (newAStarPathfinder detourSnapshot defaultMaxHops))
  ∧ assetSequence [poolXY; poolYT; poolTZ] tokX = [tokX; tokY; tokT; tokZ]
  ∧ NoDup (assetSequence [poolXY; poolYT; poolTZ] tokX)
  ∧ routeOutput [poolXY; poolYT; poolTZ] tokX 1000 = Some (tokZ, 44376)
  ∧ 98 < 44376.
Proof.
  split; [vm_compute; reflexivity |].
  split; [vm_compute; reflexivity |].
  split.
  { repeat (apply Forall_cons; split;
            [split; [unfold detourSnapshot;
                     auto using list_elem_of_here, list_elem_of_further
                    | unfold wf_pool; simpl; lia] |]).
    apply Forall_nil_2. }
  split; [vm_compute; discriminate |].
  split; [vm_compute; reflexivity |].
  split; [apply (bool_decide_unpack _); vm_compute; exact I |].
  split; [vm_compute; reflexivity | lia].
Qed.

(** C9. In [longWaySnapshot] the search under a bound of 2 hops returns
    the route X-Y-Z with output 98, and under a bound of 3 hops it
    returns none: the three-hop arrival at Y with 988 replaces the
    best-known entry of Y, cannot be expanded at the bound, and makes
    the one-hop arrival with 99 stale. *)
Theorem larger_bound_loses_route :
  findOptimalRoute (newAStarPathfinder longWaySnapshot 2) tokX tokZ 1000
  = Some {| route := [address poolXY'; address poolYZ]; route_amountOut := 98 |}
  ∧ findOptimalRoute (newAStarPathfinder longWaySnapshot 3) tokX tokZ 1000 = None
  ∧ findOptimalRoute_fuel (enoughFuel (newAStarPathfinder longWaySnapshot 3))
      (newAStarPathfinder longWaySnapshot 3) tokX tokZ 1000 = Some None
  ∧ Forall wf_pool longWaySnapshot
  ∧ routeOutput [poolXY'; poolYZ] tokX 1000 = Some (tokZ, 98).
Proof.
  split; [vm_compute; reflexivity |].
  split; [vm_compute; reflexivity |].
  split; [vm_compute; reflexivity |].
  split; [| vm_compute; reflexivity].
  repeat (apply Forall_cons; split; [unfold wf_pool; simpl; lia |]).
  apply Forall_nil_2.
Qed.


(** * Further properties of the code *)

(** ** Pricing: bounds and monotonicity *)

(** On the data model's values a priced trade is the floor of the
    quotient over a positive denominator. *)
Lemma getOutputAmount_floor (pool : PoolInfo) (inputMint : PublicKey) (amountIn out : Z) :
  wf_pool pool → 0 ≤ amountIn →
  getOutputAmount pool inputMint amountIn = Some out →
  0 < denominator pool inputMint amountIn
  ∧ out = numerator pool inputMint amountIn / denominator pool inputMint amountIn.
Proof.
  intros Hwf Ha. unfold getOutputAmount.
  destruct (_ && _); [discriminate |].
  destruct (Z.eqb_spec (denominator pool inputMint amountIn) 0) as [| Hd];
    [discriminate |].
  intros [= <-].
  pose proof (numerator_nonneg pool inputMint amountIn Hwf Ha).
  pose proof (denominator_nonneg pool inputMint amountIn Hwf Ha).
  split; [lia |]. apply Z.quot_div_nonneg; lia.
Qed.

(** X1. On the data model's values the output of a pool never exceeds
    the reserve of the asset paid out, and stays strictly below it when
    both reserves are positive. *)
Theorem getOutputAmount_below_reserve (pool : PoolInfo) (inputMint : PublicKey)
  (amountIn out : Z) :
  wf_pool pool → 0 ≤ amountIn →
  getOutputAmount pool inputMint amountIn = Some out →
  0 ≤ out ≤ reserveOut pool inputMint
  ∧ (0 < reserveIn pool inputMint → 0 < reserveOut pool inputMint →
     out < reserveOut pool inputMint).
Proof.
  intros Hwf Ha Hg.
  destruct (getOutputAmount_floor _ _ _ _ Hwf Ha Hg) as [Hd ->].
  destruct (reserves_nonneg pool inputMint Hwf) as [Hin Hout].
  pose proof (numerator_nonneg pool inputMint amountIn Hwf Ha) as Hn.
  destruct Hwf as (Hfee & _).
  unfold numerator, denominator, feeFactor in *.
  set (u := amountIn * (10000 - feeBps pool)) in *.
  assert (Hu : 0 ≤ u) by (apply Z.mul_nonneg_nonneg; lia).
  split; [split |].
  - apply Z.div_pos; lia.
  - apply Z.div_le_upper_bound; [exact Hd | nia].
  - intros Hin' Hout'. apply Z.div_lt_upper_bound; [exact Hd | nia].
Qed.

Lemma getOutputAmount_below_reserve_witness :
  0 ≤ 1992 ≤ reserveOut pool1 tokA
  ∧ (0 < reserveIn pool1 tokA → 0 < reserveOut pool1 tokA →
     1992 < reserveOut pool1 tokA).
Proof.
  apply (getOutputAmount_below_reserve pool1 tokA 1000 1992);
    [unfold wf_pool; simpl; lia | lia | vm_compute; reflexivity].
Defined.

(** X2. On the data model's values the output of a pool does not
    decrease when the input amount grows. *)
Theorem getOutputAmount_monotone (pool : PoolInfo) (inputMint : PublicKey)
  (amount1 amount2 out1 out2 : Z) :
  wf_pool pool → 0 ≤ amount1 ≤ amount2 →
  getOutputAmount pool inputMint amount1 = Some out1 →
  getOutputAmount pool inputMint amount2 = Some out2 →
  out1 ≤ out2.
Proof.
  intros Hwf [H1 H12] Hg1 Hg2.
  destruct (getOutputAmount_floor _ _ _ _ Hwf H1 Hg1) as [Hd1 ->].
  assert (H2 : 0 ≤ amount2) by lia.
  destruct (getOutputAmount_floor _ _ _ _ Hwf H2 Hg2) as [Hd2 ->].
  destruct (reserves_nonneg pool inputMint Hwf) as [Hin Hout].
  destruct Hwf as (Hfee & _).
  unfold numerator, denominator, feeFactor in *.
  set (f := 10000 - feeBps pool) in *.
  set (u1 := amount1 * f) in *. set (u2 := amount2 * f) in *.
  set (D := reserveIn pool inputMint * 10000) in *.
  set (R := reserveOut pool inputMint) in *.
  assert (Hu1 : 0 ≤ u1) by (apply Z.mul_nonneg_nonneg; lia).
  assert (Hu12 : u1 ≤ u2) by (apply Z.mul_le_mono_nonneg_r; lia).
  assert (HD : 0 ≤ D) by lia.
  apply Z.div_le_lower_bound; [exact Hd2 |].
  set (q := u1 * R / (D + u1)).
  assert (Hq : (D + u1) * q ≤ u1 * R) by (apply Z.mul_div_le; exact Hd1).
  assert (Hq0 : 0 ≤ q) by (apply Z.div_pos; [nia | exact Hd1]).
  (* q (D + u2) (D + u1) ≤ u1 R (D + u2) ≤ u2 R (D + u1) *)
  assert (Hgap : 0 ≤ (u2 - u1) * (R * D))
    by (apply Z.mul_nonneg_nonneg; [| apply Z.mul_nonneg_nonneg]; lia).
  assert (Hcross : u1 * R * (D + u2) ≤ u2 * R * (D + u1)) by lia.
  assert (Hscale : (D + u2) * ((D + u1) * q) ≤ (D + u2) * (u1 * R))
    by (apply Z.mul_le_mono_nonneg_l; [lia | exact Hq]).
  assert (Hm : (D + u2) * q * (D + u1) ≤ u2 * R * (D + u1)) by lia.
  apply Z.mul_le_mono_pos_r in Hm; [exact Hm | exact Hd1].
Qed.

Lemma getOutputAmount_monotone_witness : 1992 ≤ 19743.
Proof.
  apply (getOutputAmount_monotone pool1 tokA 1000 10000 1992 19743);
    [unfold wf_pool; simpl; lia | lia | vm_compute; reflexivity
    | vm_compute; reflexivity].
Defined.

(** X3. [getOtherToken] is an involution on the assets of a pool:
    the other asset of the other asset is the asset itself. It is
    defined exactly for the assets for which the pricing function does
    not reject the asset. *)
Theorem getOtherToken_involutive (pool : PoolInfo) (tok : PublicKey) :
  (∀ other, getOtherToken pool tok = Some other →
            getOtherToken pool other = Some tok)
  ∧ (getOtherToken pool tok = None ↔ tok ≠ tokenA pool ∧ tok ≠ tokenB pool)
  ∧ (getOtherToken pool tok = None →
     ∀ amountIn, getOutputAmount pool tok amountIn = None).
Proof.
  unfold getOtherToken. split; [| split].
  - intros other.
    destruct (decide (tok = tokenA pool)) as [EA | NA].
    + intros [= <-].
      destruct (decide (tokenB pool = tokenA pool)) as [E | _];
        [congruence |].
      destruct (decide (tokenB pool = tokenB pool)); congruence.
    + destruct (decide (tok = tokenB pool)) as [EB | NB]; [| discriminate].
      intros [= <-].
      destruct (decide (tokenA pool = tokenA pool)); congruence.
  - destruct (decide (tok = tokenA pool)); [split; [discriminate | tauto] |].
    destruct (decide (tok = tokenB pool)); [split; [discriminate | tauto] |].
    tauto.
  - destruct (decide (tok = tokenA pool)); [discriminate |].
    destruct (decide (tok = tokenB pool)); [discriminate |].
    intros _ amountIn. apply getOutputAmount_not_member; assumption.
Qed.

Lemma getOtherToken_involutive_witness :
  getOtherToken pool1 tokB = Some tokA
  ∧ getOutputAmount pool1 tokC 5 = None.
Proof.
  destruct (getOtherToken_involutive pool1 tokA) as (Hinv & _).
  destruct (getOtherToken_involutive pool1 tokC) as (_ & _ & Hnone).
  split; [apply Hinv; reflexivity | apply Hnone; reflexivity].
Defined.

(** ** The order of the open set *)

Lemma compareNodes_le (a b : PathNode) :
  compareNodes a b ≤ 0
  ↔ cost a < cost b ∨ (cost a = cost b ∧ hops a ≤ hops b).
Proof.
  unfold compareNodes, BN_cmp.
  destruct (Z.compare_spec (cost a) (cost b)); simpl; lia.
Qed.

Lemma sortInsert_sorted (x : PathNode) (l : list PathNode) :
  StronglySorted (λ a b, compareNodes a b ≤ 0) l →
  StronglySorted (λ a b, compareNodes a b ≤ 0) (sortInsert x l).
Proof.
  induction 1 as [| y l Hs IH Hy]; simpl.
  - repeat constructor.
  - destruct (Z.leb_spec (compareNodes x y) 0) as [Hxy | Hxy].
    + constructor; [constructor; assumption |].
      constructor; [exact Hxy |].
      eapply Forall_impl; [exact Hy |]. intros z Hyz. simpl in Hyz.
      apply compareNodes_le in Hxy, Hyz. apply compareNodes_le. lia.
    + constructor; [exact IH |].
      rewrite sortInsert_perm. constructor; [| exact Hy].
      apply compareNodes_le.
      assert (Hn : ¬ compareNodes x y ≤ 0) by lia.
      rewrite compareNodes_le in Hn. lia.
Qed.

Lemma sortNodes_sorted (l : list PathNode) :
  StronglySorted (λ a b, compareNodes a b ≤ 0) (sortNodes l).
Proof.
  induction l as [| x l IH]; simpl; [constructor |].
  apply sortInsert_sorted. exact IH.
Qed.

(** X4. The node the loop shifts off the sorted open set is least for
    the comparator: no open node has a smaller cost, and none of equal
    cost has fewer hops. Among nodes whose cost is [2^64 - amountOut],
    as the search pushes them, it has the greatest amount, whatever the
    size of the amounts. *)
Theorem shifted_node_is_least (l : list PathNode) (current : PathNode)
  (rest : list PathNode) :
  sortNodes l = current :: rest →
  l ≡ₚ current :: rest
  ∧ Forall (λ n, cost current < cost n
                 ∨ (cost current = cost n ∧ hops current ≤ hops n)) rest
  ∧ Forall (λ n, cost current = two64 - amountOut current →
                 cost n = two64 - amountOut n →
                 amountOut n < amountOut current
                 ∨ (amountOut n = amountOut current ∧ hops current ≤ hops n)) rest.
Proof.
  intros Hs.
  assert (Hp : l ≡ₚ current :: rest)
    by (rewrite <- Hs; symmetry; apply sortNodes_perm).
  pose proof (sortNodes_sorted l) as Hsorted. rewrite Hs in Hsorted.
  apply StronglySorted_inv in Hsorted as [_ Hmin].
  split; [exact Hp |]. split.
  - eapply Forall_impl; [exact Hmin |]. intros n Hn. simpl in Hn.
    apply compareNodes_le. exact Hn.
  - eapply Forall_impl; [exact Hmin |]. intros n Hn Hc Hcn. simpl in Hn.
    apply compareNodes_le in Hn. lia.
Qed.

Lemma shifted_node_is_least_witness :
  Forall (λ n, cost (mkNode tokB (two64 - 7) 1 [101%N] 7) < cost n
               ∨ (cost (mkNode tokB (two64 - 7) 1 [101%N] 7) = cost n
                  ∧ hops (mkNode tokB (two64 - 7) 1 [101%N] 7) ≤ hops n))
    [mkNode tokC (two64 - 5) 1 [103%N] 5].
Proof.
  destruct (shifted_node_is_least
              [mkNode tokC (two64 - 5) 1 [103%N] 5; mkNode tokB (two64 - 7) 1 [101%N] 7]
              (mkNode tokB (two64 - 7) 1 [101%N] 7)
              [mkNode tokC (two64 - 5) 1 [103%N] 5]) as (_ & H & _);
    [vm_compute; reflexivity | exact H].
Defined.

(** ** What the loop keeps *)

Lemma explorePool_best_grows (current : PathNode) (vis : gset N)
  (acc : list PathNode * gmap N (Z * Z)) (pool : PoolInfo) (key : N) (b h : Z) :
  acc.2 !! key = Some (b, h) →
  ∃ b' h', (explorePool current vis acc pool).2 !! key = Some (b', h')
           ∧ (b < b' ∨ (b' = b ∧ h' ≤ h)).
Proof.
  intros Hk. unfold explorePool.
  assert (Hsame : ∃ b' h', acc.2 !! key = Some (b', h') ∧ (b < b' ∨ (b' = b ∧ h' ≤ h)))
    by (exists b, h; split; [exact Hk | lia]).
  destruct (getOtherToken pool (token current)) as [next |]; [| exact Hsame].
  destruct (bool_decide _); [exact Hsame |].
  destruct (getOutputAmount _ _ _) as [out |]; [| exact Hsame].
  destruct (out =? 0); [exact Hsame |].
  destruct (shouldExplore out (hops current + 1) (acc.2 !! next)) eqn:Hse;
    [| exact Hsame].
  simpl. destruct (decide (next = key)) as [-> | Hne].
  - rewrite lookup_insert_eq. exists out, (hops current + 1).
    split; [reflexivity |].
    rewrite Hk in Hse. simpl in Hse.
    apply orb_true_iff in Hse as [Hgt | Heq]; [lia |].
    apply andb_true_iff in Heq as [He Hl]. lia.
  - rewrite lookup_insert_ne by exact Hne. exact Hsame.
Qed.

Lemma explore_best_grows (current : PathNode) (vis : gset N) (l : list PoolInfo)
  (acc : list PathNode * gmap N (Z * Z)) (key : N) (b h : Z) :
  acc.2 !! key = Some (b, h) →
  ∃ b' h', (foldl (explorePool current vis) acc l).2 !! key = Some (b', h')
           ∧ (b < b' ∨ (b' = b ∧ h' ≤ h)).
Proof.
  revert acc b h. induction l as [| p l IH]; intros acc b h Hk; simpl.
  - exists b, h. split; [exact Hk | lia].
  - destruct (explorePool_best_grows current vis acc p key b h Hk)
      as (b1 & h1 & H1 & Hle1).
    destruct (IH _ _ _ H1) as (b2 & h2 & H2 & Hle2).
    exists b2, h2. split; [exact H2 | lia].
Qed.

Lemma step_best_grows (pf : AStarPathfinder) (outputMint : PublicKey)
  (st : SearchState) (key : N) (b h : Z) :
  bestRoutes st !! key = Some (b, h) →
  ∃ b' h', bestRoutes (step pf outputMint st) !! key = Some (b', h')
           ∧ (b < b' ∨ (b' = b ∧ h' ≤ h)).
Proof.
  intros Hk.
  assert (Hsame : ∃ b' h', bestRoutes st !! key = Some (b', h')
                           ∧ (b < b' ∨ (b' = b ∧ h' ≤ h)))
    by (exists b, h; split; [exact Hk | lia]).
  unfold step. destruct (sortNodes (openSet st)) as [| current rest];
    [exact Hsame |].
  unfold processNode.
  destruct (isStale _ _); [exact Hsame |].
  destruct (bool_decide _); [exact Hsame |].
  destruct (_ >=? _); [exact Hsame |].
  simpl. apply explore_best_grows. exact Hk.
Qed.

(** X5. The best-known table only improves: an entry is never removed,
    its amount never decreases, and at an equal amount its hop count
    never increases, from any iteration of the loop to any later one. *)
Theorem bestRoutes_only_improves (pf : AStarPathfinder)
  (inputMint outputMint : PublicKey) (amountIn : Z) (i j : nat) (key : N) (b h : Z) :
  (i ≤ j)%nat →
  bestRoutes (Nat.iter i (step pf outputMint) (initialState inputMint amountIn)) !! key
  = Some (b, h) →
  ∃ b' h',
    bestRoutes (Nat.iter j (step pf outputMint) (initialState inputMint amountIn)) !! key
    = Some (b', h')
    ∧ (b < b' ∨ (b' = b ∧ h' ≤ h)).
Proof.
  intros Hij Hk. induction Hij as [| j Hij IH].
  - exists b, h. split; [exact Hk | lia].
  - destruct IH as (b1 & h1 & H1 & Hle1). simpl.
    destruct (step_best_grows pf outputMint _ key b1 h1 H1) as (b2 & h2 & H2 & Hle2).
    exists b2, h2. split; [exact H2 | lia].
Qed.

Lemma bestRoutes_only_improves_witness :
  ∃ b' h',
    bestRoutes (Nat.iter 2 (step (newAStarPathfinder [pool1; pool2] 3) tokC)
                  (initialState tokA 1000)) !! tokA = Some (b', h')
    ∧ (1000 < b' ∨ (b' = 1000 ∧ h' ≤ 0)).
Proof.
  apply (bestRoutes_only_improves (newAStarPathfinder [pool1; pool2] 3)
           tokA tokC 1000 0 2 tokA 1000 0); [lia | vm_compute; reflexivity].
Defined.

(** X6. The output asset is never marked visited, at any iteration of
    the loop, so an arrival at the output asset is never cut off by the
    visited test; and an asset once visited stays visited. *)
Theorem outputMint_never_visited (pf : AStarPathfinder)
  (inputMint outputMint : PublicKey) (amountIn : Z) (k : nat) :
  (outputMint
     ∉ visited (Nat.iter k (step pf outputMint) (initialState inputMint amountIn)))
  ∧ (visited (Nat.iter k (step pf outputMint) (initialState inputMint amountIn))
     ⊆ visited (Nat.iter (S k) (step pf outputMint) (initialState inputMint amountIn))).
Proof.
  assert (Hstep : ∀ st, outputMint ∉ visited st →
            (outputMint ∉ visited (step pf outputMint st))
            ∧ (visited st ⊆ visited (step pf outputMint st))).
  { intros st Hst. unfold step.
    destruct (sortNodes (openSet st)) as [| current rest];
      [split; [exact Hst | reflexivity] |].
    unfold processNode.
    destruct (isStale _ _); [split; [exact Hst | reflexivity] |].
    destruct (bool_decide_reflect (token current = outputMint)) as [| Hne];
      [split; [exact Hst | reflexivity] |].
    destruct (_ >=? _); [split; [exact Hst | reflexivity] |].
    simpl. split; [| apply union_subseteq_l].
    intros Hin. apply elem_of_union in Hin as [Hin | Hin]; [auto |].
    apply elem_of_singleton in Hin. congruence. }
  assert (Hall : ∀ n, outputMint ∉ visited
            (Nat.iter n (step pf outputMint) (initialState inputMint amountIn))).
  { induction n as [| n IH]; simpl; [set_solver |]. apply Hstep. exact IH. }
  split; [apply Hall |]. simpl. apply Hstep. apply Hall.
Qed.

(** X7. The loop of a pathfinder built by the constructor ends within
    [1 + P + P^2 + ... + P^5] iterations, [P] the number of pools,
    whatever hop bound was requested: from that much fuel on the result
    no longer depends on the fuel. *)
Theorem search_terminates_within_bound (ps : list PoolInfo) (h : Z)
  (inputMint outputMint : PublicKey) (amountIn : Z) (fuel : nat) :
  (weight (length ps) 5 ≤ fuel)%nat →
  findOptimalRoute_fuel fuel (newAStarPathfinder ps h) inputMint outputMint amountIn
  = Some (findOptimalRoute (newAStarPathfinder ps h) inputMint outputMint amountIn).
Proof.
  intros Hfuel. apply findOptimalRoute_total.
  unfold enoughFuel. simpl.
  assert (Hmono : ∀ n m, (n ≤ m)%nat →
            (weight (length ps) n ≤ weight (length ps) m)%nat).
  { assert (Hsucc : ∀ m, (weight (length ps) m ≤ weight (length ps) (S m))%nat).
    { induction m as [| m IHm].
      - simpl. lia.
      - change (weight (length ps) (S (S m)))
          with (S (length ps * weight (length ps) (S m))).
        change (weight (length ps) (S m))
          with (S (length ps * weight (length ps) m)) at 1.
        apply le_n_S. apply Nat.mul_le_mono_l. exact IHm. }
    intros n m Hnm. induction Hnm as [| m Hnm IH]; [lia |].
    etransitivity; [exact IH | apply Hsucc]. }
  etransitivity; [apply (Hmono _ 5%nat); lia | exact Hfuel].
Qed.

Lemma search_terminates_within_bound_witness :
  findOptimalRoute_fuel 70 (newAStarPathfinder [pool1; pool2] 9) tokA tokC 1000
  = Some (findOptimalRoute (newAStarPathfinder [pool1; pool2] 9) tokA tokC 1000).
Proof.
  apply search_terminates_within_bound. vm_compute. lia.
Defined.

(** ** Routes that cannot exist *)

Lemma routeOutput_first_hop (hopPools : list PoolInfo) (tok : PublicKey) (amt : Z)
  (t : PublicKey) (a : Z) :
  hopPools ≠ [] → routeOutput hopPools tok amt = Some (t, a) →
  ∃ p, p ∈ hopPools ∧ (tok = tokenA p ∨ tok = tokenB p).
Proof.
  destruct hopPools as [| p rest]; [contradiction |]. intros _ Hr.
  exists p. split; [left |]. simpl in Hr.
  unfold getOtherToken in Hr.
  destruct (decide (tok = tokenA p)); [left; assumption |].
  destruct (decide (tok = tokenB p)); [right; assumption | discriminate].
Qed.

Lemma routeOutput_last_hop (hopPools : list PoolInfo) (tok : PublicKey) (amt : Z)
  (t : PublicKey) (a : Z) :
  hopPools ≠ [] → routeOutput hopPools tok amt = Some (t, a) →
  ∃ p, p ∈ hopPools ∧ (t = tokenA p ∨ t = tokenB p).
Proof.
  revert tok amt. induction hopPools as [| p rest IH]; intros tok amt Hne Hr;
    [contradiction |].
  simpl in Hr. destruct (getOtherToken p tok) as [next |] eqn:Ho; [| discriminate].
  destruct (getOutputAmount p tok amt) as [out |]; [| discriminate].
  destruct rest as [| q rest'].
  - simpl in Hr. injection Hr as <- _. exists p. split; [left |].
    unfold getOtherToken in Ho.
    destruct (decide (tok = tokenA p)); [right; congruence |].
    destruct (decide (tok = tokenB p)); [left; congruence | discriminate].
  - destruct (IH next out ltac:(discriminate) Hr) as (r & Hin & Hm).
    exists r. split; [right; exact Hin | exact Hm].
Qed.

(** X8. No route is returned, and the loop terminates with none, when
    no pool of the snapshot holds the output asset or no pool holds the
    input asset; in particular for the empty snapshot. *)
Theorem no_route_without_pool (ps : list PoolInfo) (h : Z)
  (inputMint outputMint : PublicKey) (amountIn : Z) :
  (∀ p, p ∈ ps → outputMint ≠ tokenA p ∧ outputMint ≠ tokenB p)
  ∨ (∀ p, p ∈ ps → inputMint ≠ tokenA p ∧ inputMint ≠ tokenB p) →
  findOptimalRoute (newAStarPathfinder ps h) inputMint outputMint amountIn = None
  ∧ ∀ fuel, (enoughFuel (newAStarPathfinder ps h) ≤ fuel)%nat →
      findOptimalRoute_fuel fuel (newAStarPathfinder ps h)
        inputMint outputMint amountIn = Some None.
Proof.
  intros Hno.
  assert (Hn : findOptimalRoute (newAStarPathfinder ps h)
                 inputMint outputMint amountIn = None).
  { destruct (findOptimalRoute _ _ _ _) as [s |] eqn:Hf; [| reflexivity].
    exfalso.
    pose proof (findOptimalRoute_distinct _ _ _ _ _ Hf) as Hne.
    destruct (findOptimalRoute_valid _ _ _ _ _ Hf) as (hp & Hall & _ & _ & Hr & _).
    pose proof (validRoute_nonempty _ _ _ _ _ Hne Hr) as Hhp.
    simpl in Hall. rewrite Forall_forall in Hall.
    destruct Hno as [Hout | Hin].
    - destruct (routeOutput_last_hop _ _ _ _ _ Hhp Hr) as (p & Hp & Hm).
      destruct (Hout p (Hall p Hp)). tauto.
    - destruct (routeOutput_first_hop _ _ _ _ _ Hhp Hr) as (p & Hp & Hm).
      destruct (Hin p (Hall p Hp)). tauto. }
  split; [exact Hn |]. apply findOptimalRoute_none_total. exact Hn.
Qed.

Lemma no_route_without_pool_witness :
  findOptimalRoute (newAStarPathfinder [] 3) tokA tokB 1000 = None.
Proof.
  apply (no_route_without_pool [] 3 tokA tokB 1000).
  left. intros p Hp. inversion Hp.
Defined.

(** X9. The amount returned with a route is the amount obtained by
    pricing the input through the route's pools in order, and ends in
    the output asset: the route's identifiers are those of snapshot
    pools which, traded through one after the other with
    [getOutputAmount], turn [amountIn] of the input asset into exactly
    [amountOut] of the output asset. With unique identifiers in the
    snapshot these are the pools the identifiers resolve to. *)
Theorem returned_amount_is_replay (ps : list PoolInfo) (h : Z)
  (inputMint outputMint : PublicKey) (amountIn : Z) (s : RouteAmount) :
  findOptimalRoute (newAStarPathfinder ps h) inputMint outputMint amountIn = Some s →
  ∃ hopPools,
    Forall (λ p, p ∈ ps) hopPools
    ∧ route s = address <$> hopPools
    ∧ routeOutput hopPools inputMint amountIn = Some (outputMint, route_amountOut s)
    ∧ (NoDup (address <$> ps) → mapM (findPool ps) (route s) = Some hopPools).
Proof.
  intros Hf.
  destruct (findOptimalRoute_valid _ _ _ _ _ Hf) as (hp & Hall & Hroute & _ & Hr & _).
  simpl in Hall. exists hp. split; [exact Hall |]. split; [exact Hroute |].
  split; [exact Hr |].
  intros Huniq. rewrite Hroute. apply mapM_Some. apply Forall2_fmap_l.
  apply Forall_Forall2_diag. eapply Forall_impl; [exact Hall |].
  intros p Hp. simpl. apply findPool_unique; assumption.
Qed.

Lemma returned_amount_is_replay_witness :
  ∃ hopPools,
    mapM (findPool [pool1; pool2; pool3]) [address pool1; address pool2]
    = Some hopPools
    ∧ routeOutput hopPools tokA 10000 = Some (tokC, 29237).
Proof.
  destruct (returned_amount_is_replay [pool1; pool2; pool3] 3 tokA tokC 10000
              {| route := [address pool1; address pool2]; route_amountOut := 29237 |})
    as (hp & _ & _ & Hr & Hm); [vm_compute; reflexivity |].
  exists hp. split; [| exact Hr].
  apply Hm. apply (bool_decide_unpack _). vm_compute. exact I.
Defined.

(** ** The best direct pool *)

Lemma explorePool_direct (current : PathNode) (vis : gset N)
  (acc : list PathNode * gmap N (Z * Z)) (pool : PoolInfo) (next : PublicKey) (a : Z) :
  getOtherToken pool (token current) = Some next → next ∉ vis →
  getOutputAmount pool (token current) (amountOut current) = Some a → a ≠ 0 →
  ∃ b h, (explorePool current vis acc pool).2 !! next = Some (b, h) ∧ a ≤ b.
Proof.
  intros Ho Hv Hg Ha. unfold explorePool. rewrite Ho, Hg.
  rewrite (bool_decide_eq_false_2 _ Hv).
  apply Z.eqb_neq in Ha. rewrite Ha.
  destruct (acc.2 !! next) as [[b0 h0] |] eqn:Hb; simpl.
  - destruct ((a >? b0) || (a =? b0) && (hops current + 1 <? h0)) eqn:Hse.
    + simpl. rewrite lookup_insert_eq. exists a, (hops current + 1).
      split; [reflexivity | lia].
    + exists b0, h0. split; [exact Hb |].
      apply orb_false_iff in Hse as [Hgt _]. lia.
  - rewrite lookup_insert_eq. exists a, (hops current + 1).
    split; [reflexivity | lia].
Qed.

Lemma explore_direct (current : PathNode) (vis : gset N) (l : list PoolInfo)
  (acc : list PathNode * gmap N (Z * Z)) (pool : PoolInfo) (next : PublicKey) (a : Z) :
  pool ∈ l →
  getOtherToken pool (token current) = Some next → next ∉ vis →
  getOutputAmount pool (token current) (amountOut current) = Some a → a ≠ 0 →
  ∃ b h, (foldl (explorePool current vis) acc l).2 !! next = Some (b, h) ∧ a ≤ b.
Proof.
  intros Hin Ho Hv Hg Ha. revert acc.
  induction l as [| p l IH]; intros acc; [inversion Hin |].
  apply elem_of_cons in Hin as [<- | Hin]; simpl.
  - destruct (explorePool_direct current vis acc pool next a Ho Hv Hg Ha)
      as (b & h & Hb & Hle).
    destruct (explore_best_grows current vis l _ next b h Hb) as (b' & h' & Hb' & Hle').
    exists b', h'. split; [exact Hb' | lia].
  - apply IH. exact Hin.
Qed.

Lemma explorePool_pending (outputMint : PublicKey) (current : PathNode) (vis : gset N)
  (acc : list PathNode * gmap N (Z * Z)) (pool : PoolInfo) (sol : option RouteAmount) :
  bestPending outputMint acc.1 acc.2 sol →
  bestPending outputMint (explorePool current vis acc pool).1
    (explorePool current vis acc pool).2 sol.
Proof.
  intros Hp. unfold explorePool.
  destruct (getOtherToken pool (token current)) as [next |]; [| exact Hp].
  destruct (bool_decide _); [exact Hp |].
  destruct (getOutputAmount _ _ _) as [out |]; [| exact Hp].
  destruct (out =? 0); [exact Hp |].
  destruct (shouldExplore _ _ _); [| exact Hp].
  simpl. intros b h Hb.
  destruct (decide (next = outputMint)) as [-> | Hne].
  - rewrite lookup_insert_eq in Hb. injection Hb as <- <-. left.
    eexists. split; [apply elem_of_app; right; apply list_elem_of_singleton;
                     reflexivity |].
    simpl. auto.
  - rewrite lookup_insert_ne in Hb by exact Hne.
    destruct (Hp b h Hb) as [(n & Hn & Hrest) | Hsol]; [left | right; exact Hsol].
    exists n. split; [apply elem_of_app; left; exact Hn | exact Hrest].
Qed.

Lemma explore_pending (outputMint : PublicKey) (current : PathNode) (vis : gset N)
  (l : list PoolInfo) (acc : list PathNode * gmap N (Z * Z)) (sol : option RouteAmount) :
  bestPending outputMint acc.1 acc.2 sol →
  bestPending outputMint (foldl (explorePool current vis) acc l).1
    (foldl (explorePool current vis) acc l).2 sol.
Proof.
  revert acc. induction l as [| p l IH]; intros acc Hp; [exact Hp |].
  simpl. apply IH. apply explorePool_pending. exact Hp.
Qed.

Lemma processNode_pending (pf : AStarPathfinder) (outputMint : PublicKey)
  (current : PathNode) (rest : list PathNode) (st : SearchState) :
  bestPending outputMint (current :: rest) (bestRoutes st) (bestSolution st) →
  bestPending outputMint
    (openSet (processNode pf outputMint current rest st))
    (bestRoutes (processNode pf outputMint current rest st))
    (bestSolution (processNode pf outputMint current rest st)).
Proof.
  intros Hp. unfold processNode.
  destruct (isStale current (bestRoutes st !! token current)) eqn:Hstale.
  { simpl. intros b h Hb.
    destruct (Hp b h Hb) as [(n & Hn & Ht & Ha & Hh) | Hsol]; [| right; exact Hsol].
    left. exists n. split; [| auto].
    apply elem_of_cons in Hn as [-> | Hn]; [| exact Hn].
    exfalso. rewrite Ht, Hb in Hstale. simpl in Hstale. lia. }
  destruct (bool_decide_reflect (token current = outputMint)) as [Ht | Hne].
  { simpl. intros b h Hb.
    destruct (Hp b h Hb) as [(n & Hn & Htn & Ha & Hh) | (s & Hs & Hle)].
    - apply elem_of_cons in Hn as [-> | Hn].
      + right. unfold updateSolution.
        destruct (bestSolution st) as [s0 |].
        * destruct (Z.gtb_spec (amountOut current) (route_amountOut s0)).
          -- eexists. split; [reflexivity |]. simpl. lia.
          -- exists s0. split; [reflexivity | lia].
        * eexists. split; [reflexivity |]. simpl. lia.
      + left. exists n. auto.
    - right. unfold updateSolution. rewrite Hs.
      destruct (Z.gtb_spec (amountOut current) (route_amountOut s)).
      + eexists. split; [reflexivity |]. simpl. lia.
      + exists s. split; [reflexivity | exact Hle]. }
  assert (Hrest : bestPending outputMint rest (bestRoutes st) (bestSolution st)).
  { intros b h Hb.
    destruct (Hp b h Hb) as [(n & Hn & Htn & Hrem) | Hsol]; [| right; exact Hsol].
    left. exists n. split; [| auto].
    apply elem_of_cons in Hn as [-> | Hn]; [contradiction | exact Hn]. }
  destruct (_ >=? _); [exact Hrest |].
  simpl. apply (explore_pending outputMint current _ (pools pf) (rest, bestRoutes st)).
  exact Hrest.
Qed.

Lemma step_pending (pf : AStarPathfinder) (outputMint : PublicKey) (st : SearchState) :
  bestPending outputMint (openSet st) (bestRoutes st) (bestSolution st) →
  bestPending outputMint (openSet (step pf outputMint st))
    (bestRoutes (step pf outputMint st)) (bestSolution (step pf outputMint st)).
Proof.
  intros Hp. unfold step.
  destruct (sortNodes (openSet st)) as [| current rest] eqn:Hs; [exact Hp |].
  apply processNode_pending. intros b h Hb.
  destruct (Hp b h Hb) as [(n & Hn & Hrem) | Hsol]; [| right; exact Hsol].
  left. exists n. split; [| exact Hrem].
  rewrite <- Hs. rewrite sortNodes_perm. exact Hn.
Qed.

Lemma searchLoop_lower_bound (pf : AStarPathfinder) (outputMint : PublicKey)
  (fuel : nat) (st : SearchState) (r : option RouteAmount) (a b h : Z) :
  bestPending outputMint (openSet st) (bestRoutes st) (bestSolution st) →
  bestRoutes st !! outputMint = Some (b, h) → a ≤ b →
  searchLoop pf outputMint fuel st = Some r →
  ∃ s, r = Some s ∧ a ≤ route_amountOut s.
Proof.
  revert st b h. induction fuel as [| fuel IH]; intros st b h Hp Hb Hab Hrun;
    simpl in Hrun.
  - destruct (openSet st) eqn:Ho; [| discriminate]. injection Hrun as <-.
    destruct (Hp b h Hb) as [(n & Hn & _) | (s & Hs & Hle)].
    + inversion Hn.
    + exists s. split; [exact Hs | lia].
  - destruct (openSet st) eqn:Ho.
    + injection Hrun as <-.
      destruct (Hp b h Hb) as [(n & Hn & _) | (s & Hs & Hle)].
      * inversion Hn.
      * exists s. split; [exact Hs | lia].
    + destruct (step_best_grows pf outputMint st outputMint b h Hb)
        as (b' & h' & Hb' & Hle').
      eapply (IH _ b' h');
        [apply step_pending; rewrite Ho; exact Hp | exact Hb' | lia | exact Hrun].
Qed.

(** The first iteration expands the seed whenever the bound allows a
    hop. *)
Lemma first_step (pf : AStarPathfinder) (inputMint outputMint : PublicKey)
  (amountIn : Z) :
  inputMint ≠ outputMint → 1 ≤ maxHops pf →
  step pf outputMint (initialState inputMint amountIn)
  = let seed := {| token := inputMint; cost := 0; hops := 0; path := [];
                   amountOut := amountIn |} in
    let vis : gset N := ∅ ∪ {[ inputMint ]} in
    let r := foldl (explorePool seed vis)
               ([], {[ inputMint := (amountIn, 0) ]}) (pools pf) in
    mkState r.1 vis r.2 None.
Proof.
  intros Hne Hh. unfold step, initialState. simpl. unfold processNode. simpl.
  rewrite lookup_singleton_eq. simpl.
  rewrite Z.ltb_irrefl, Z.eqb_refl. simpl.
  rewrite (bool_decide_eq_false_2 _ Hne).
  destruct (Z.geb_spec 0 (maxHops pf)); [lia | reflexivity].
Qed.

Lemma direct_pool_lower_bound (pf : AStarPathfinder) (inputMint outputMint : PublicKey)
  (amountIn : Z) (pool : PoolInfo) (a : Z) :
  inputMint ≠ outputMint → 1 ≤ maxHops pf → pool ∈ pools pf →
  getOtherToken pool inputMint = Some outputMint →
  getOutputAmount pool inputMint amountIn = Some a → a ≠ 0 →
  ∃ s, findOptimalRoute pf inputMint outputMint amountIn = Some s
       ∧ a ≤ route_amountOut s.
Proof.
  intros Hne Hh Hin Ho Hg Ha.
  pose proof (findOptimalRoute_total pf inputMint outputMint amountIn
                (enoughFuel pf) (le_n _)) as Htot.
  unfold findOptimalRoute_fuel in Htot.
  destruct (decide (inputMint = outputMint)); [contradiction |].
  assert (Hfuel : ∃ f, enoughFuel pf = S f).
  { unfold enoughFuel.
    pose proof (weight_pos (length (pools pf)) (Z.to_nat (maxHops pf))).
    destruct (weight _ _); [lia | eauto]. }
  destruct Hfuel as [f Hf]. rewrite Hf in Htot.
  change (searchLoop pf outputMint (S f) (initialState inputMint amountIn))
    with (searchLoop pf outputMint f (step pf outputMint (initialState inputMint amountIn)))
    in Htot.
  set (seed := {| token := inputMint; cost := 0; hops := 0; path := [];
                  amountOut := amountIn |}).
  assert (Hvis : outputMint ∉ (∅ ∪ {[ inputMint ]} : gset N)).
  { intros Hv. apply elem_of_union in Hv as [Hv | Hv].
    - apply not_elem_of_empty in Hv. exact Hv.
    - apply elem_of_singleton in Hv. congruence. }
  destruct (explore_direct seed (∅ ∪ {[ inputMint ]}) (pools pf)
              ([], {[ inputMint := (amountIn, 0) ]}) pool outputMint a
              Hin Ho Hvis Hg Ha) as (b & h & Hb & Hle).
  destruct (searchLoop_lower_bound pf outputMint f
              (step pf outputMint (initialState inputMint amountIn))
              (findOptimalRoute pf inputMint outputMint amountIn) a b h)
    as (s & Hs & Hsa).
  - apply step_pending. intros b0 h0 Hb0. simpl in Hb0.
    rewrite lookup_singleton_ne in Hb0 by exact Hne. discriminate.
  - rewrite (first_step pf inputMint outputMint amountIn Hne Hh). exact Hb.
  - exact Hle.
  - exact Htot.
  - exists s. split; [exact Hs | exact Hsa].
Qed.

(** X10. Whenever the bound allows a hop and a pool of the snapshot
    trades the input asset directly into the output asset for a nonzero
    amount, the search returns a route, and the amount it returns is at
    least that of the direct pool. *)
Theorem result_at_least_direct_pool (ps : list PoolInfo) (h : Z)
  (inputMint outputMint : PublicKey) (amountIn : Z) (pool : PoolInfo) (a : Z) :
  inputMint ≠ outputMint → 1 ≤ h → pool ∈ ps →
  getOtherToken pool inputMint = Some outputMint →
  getOutputAmount pool inputMint amountIn = Some a → a ≠ 0 →
  ∃ s, findOptimalRoute (newAStarPathfinder ps h) inputMint outputMint amountIn = Some s
       ∧ a ≤ route_amountOut s.
Proof.
  intros Hne Hh Hin Ho Hg Ha.
  apply (direct_pool_lower_bound (newAStarPathfinder ps h) _ _ _ pool a);
    try assumption.
  simpl. lia.
Qed.

Lemma result_at_least_direct_pool_witness :
  ∃ s, findOptimalRoute (newAStarPathfinder [pool1; pool2; pool3] 3) tokA tokC 10000
       = Some s
       ∧ 24629 ≤ route_amountOut s.
Proof.
  apply (result_at_least_direct_pool [pool1; pool2; pool3] 3 tokA tokC 10000 pool3 24629).
  - vm_compute. discriminate.
  - lia.
  - auto using list_elem_of_here, list_elem_of_further.
  - reflexivity.
  - vm_compute. reflexivity.
  - lia.
Defined.

(** X11. With a hop bound of 1 the search is optimal: a returned route
    is one snapshot pool that trades the input asset into the output
    asset, its amount is that pool's output, and no pool trading
    directly gives a larger nonzero amount; and a route is returned as
    soon as some direct pool gives a nonzero amount. *)
Theorem one_hop_search_is_optimal (ps : list PoolInfo)
  (inputMint outputMint : PublicKey) (amountIn : Z) :
  (∀ s, findOptimalRoute (newAStarPathfinder ps 1) inputMint outputMint amountIn
        = Some s →
     ∃ best, best ∈ ps
       ∧ route s = [address best]
       ∧ getOtherToken best inputMint = Some outputMint
       ∧ getOutputAmount best inputMint amountIn = Some (route_amountOut s)
       ∧ ∀ pool a, pool ∈ ps →
           getOtherToken pool inputMint = Some outputMint →
           getOutputAmount pool inputMint amountIn = Some a → a ≠ 0 →
           a ≤ route_amountOut s)
  ∧ (inputMint ≠ outputMint →
     ∀ pool a, pool ∈ ps →
       getOtherToken pool inputMint = Some outputMint →
       getOutputAmount pool inputMint amountIn = Some a → a ≠ 0 →
       ∃ s, findOptimalRoute (newAStarPathfinder ps 1) inputMint outputMint amountIn
            = Some s).
Proof.
  split.
  - intros s Hf.
    pose proof (findOptimalRoute_distinct _ _ _ _ _ Hf) as Hne.
    destruct (findOptimalRoute_valid _ _ _ _ _ Hf)
      as (hp & Hall & Hroute & Hlen & Hr & _).
    pose proof (validRoute_nonempty _ _ _ _ _ Hne Hr) as Hhp.
    simpl in Hall, Hlen.
    destruct hp as [| best [| q rest]]; [contradiction | | simpl in Hlen; lia].
    apply Forall_cons in Hall as [Hall _]. simpl in Hr.
    destruct (getOtherToken best inputMint) as [next |] eqn:Ho; [| discriminate].
    destruct (getOutputAmount best inputMint amountIn) as [out |] eqn:Hg;
      [| discriminate].
    injection Hr as -> ->.
    exists best. split; [exact Hall |]. split; [exact Hroute |].
    split; [exact Ho |]. split; [exact Hg |].
    intros pool a Hin Hpo Hpg Ha.
    destruct (direct_pool_lower_bound (newAStarPathfinder ps 1) inputMint outputMint
                amountIn pool a Hne ltac:(simpl; lia) Hin Hpo Hpg Ha)
      as (s' & Hs' & Hle).
    rewrite Hf in Hs'. injection Hs' as <-. exact Hle.
  - intros Hne pool a Hin Hpo Hpg Ha.
    destruct (direct_pool_lower_bound (newAStarPathfinder ps 1) inputMint outputMint
                amountIn pool a Hne ltac:(simpl; lia) Hin Hpo Hpg Ha)
      as (s & Hs & _).
    exists s. exact Hs.
Qed.

Lemma one_hop_search_is_optimal_witness :
  (∃ best, best ∈ [pool1; pool3]
     ∧ [address pool3] = [address best]
     ∧ getOutputAmount best tokA 10000 = Some 24629)
  ∧ ∃ s, findOptimalRoute (newAStarPathfinder [pool1; pool3] 1) tokA tokC 10000
         = Some s.
Proof.
  destruct (one_hop_search_is_optimal [pool1; pool3] tokA tokC 10000) as [H H'].
  split.
  - destruct (H {| route := [address pool3]; route_amountOut := 24629 |})
      as (best & Hin & Hroute & _ & Hg & _); [vm_compute; reflexivity |].
    exists best. auto.
  - apply (H' ltac:(vm_compute; discriminate) pool3 24629);
      [auto using list_elem_of_here, list_elem_of_further | reflexivity
      | vm_compute; reflexivity | lia].
Defined.

(** ** Pricing there and back *)

(** X12. On the data model's values, trading an amount through a pool
    and the proceeds back through the same pool snapshot never returns
    more than the amount put in. *)
Theorem round_trip_never_gains (pool : PoolInfo) (tok other : PublicKey)
  (amountIn there back : Z) :
  wf_pool pool → 0 ≤ amountIn → tokenA pool ≠ tokenB pool →
  getOtherToken pool tok = Some other →
  getOutputAmount pool tok amountIn = Some there →
  getOutputAmount pool other there = Some back →
  0 ≤ back ≤ amountIn.
Proof.
  intros Hwf Ha Hab Ho Hg1 Hg2.
  assert (Hthere : 0 ≤ there) by (eapply getOutputAmount_nonneg; eassumption).
  destruct (getOutputAmount_floor _ _ _ _ Hwf Ha Hg1) as [Hd1 E1].
  destruct (getOutputAmount_floor _ _ _ _ Hwf Hthere Hg2) as [Hd2 E2].
  assert (Hback : 0 ≤ back) by (eapply getOutputAmount_nonneg; eassumption).
  split; [exact Hback |].
  assert (Hswap : reserveIn pool other = reserveOut pool tok
                  ∧ reserveOut pool other = reserveIn pool tok).
  { unfold getOtherToken in Ho. unfold reserveIn, reserveOut.
    destruct (decide (tok = tokenA pool)) as [-> | NA].
    - injection Ho as <-.
      destruct (decide (tokenB pool = tokenA pool)); [congruence | auto].
    - destruct (decide (tok = tokenB pool)) as [-> | NB]; [| discriminate].
      injection Ho as <-.
      destruct (decide (tokenA pool = tokenA pool)); [auto | congruence]. }
  destruct Hswap as [Hin Hout].
  destruct (reserves_nonneg pool tok Hwf) as [HRin HRout].
  destruct Hwf as (Hfee & _).
  unfold numerator, denominator, feeFactor in *. rewrite Hin, Hout in *.
  set (f := 10000 - feeBps pool) in *.
  set (RA := reserveIn pool tok) in *. set (RB := reserveOut pool tok) in *.
  assert (Hq1 : (RA * 10000 + amountIn * f) * there ≤ amountIn * f * RB)
    by (rewrite E1; apply Z.mul_div_le; exact Hd1).
  rewrite E2. apply Z.div_le_upper_bound; [exact Hd2 |].
  (* there f RA <= 10000 amountIn RB <= (RB 10000 + there f) amountIn *)
  assert (Hf : 0 < f ≤ 10000) by (unfold f; lia).
  assert (H1 : 0 ≤ amountIn * f * there) by (repeat apply Z.mul_nonneg_nonneg; lia).
  assert (H2 : RA * 10000 * there ≤ amountIn * f * RB) by lia.
  assert (H3 : f * (RA * 10000 * there) ≤ f * (amountIn * f * RB))
    by (apply Z.mul_le_mono_nonneg_l; lia).
  assert (H4 : f * f ≤ 10000 * 10000) by nia.
  assert (H5 : (f * f) * (amountIn * RB) ≤ (10000 * 10000) * (amountIn * RB))
    by (apply Z.mul_le_mono_nonneg_r; [apply Z.mul_nonneg_nonneg; lia | exact H4]).
  assert (H6 : 0 ≤ there * f * amountIn) by (repeat apply Z.mul_nonneg_nonneg; lia).
  lia.
Qed.

Lemma round_trip_never_gains_witness : 0 ≤ 992 ≤ 1000.
Proof.
  apply (round_trip_never_gains pool1 tokA tokB 1000 1992 992);
    [unfold wf_pool; simpl; lia | lia | vm_compute; discriminate | reflexivity
    | vm_compute; reflexivity | vm_compute; reflexivity].
Defined.

(** ** Quotes *)

Lemma findPool_Some (ps : list PoolInfo) (a : PublicKey) (p : PoolInfo) :
  findPool ps a = Some p → p ∈ ps ∧ address p = a.
Proof.
  unfold findPool. intros Hf. apply find_some in Hf as [Hin Ha].
  split; [apply list_elem_of_In; exact Hin |].
  apply bool_decide_eq_true in Ha. exact Ha.
Qed.

Lemma flatHopFee_bounds (ps : list PoolInfo) (amountIn : Z) (a : PublicKey) :
  Forall wf_pool ps → 0 ≤ amountIn → 0 ≤ flatHopFee amountIn ps a ≤ amountIn.
Proof.
  intros Hwf Ha. unfold flatHopFee.
  destruct (findPool ps a) as [p |] eqn:Hf; [| lia].
  apply findPool_Some in Hf as [Hin _].
  rewrite Forall_forall in Hwf. destruct (Hwf p Hin) as (Hfee & _).
  assert (Hn : 0 ≤ amountIn * feeBps p) by (apply Z.mul_nonneg_nonneg; lia).
  rewrite Z.quot_div_nonneg by lia. split.
  - apply Z.div_pos; lia.
  - apply Z.div_le_upper_bound; [lia | nia].
Qed.

(** X13. On the data model's values the fee of a quote is never
    negative and never more than the input amount per hop of the route,
    hence at most five times the input amount. *)
Theorem quote_fee_bounds (inputMint outputMint : PublicKey) (amountIn : Z)
  (ps : list PoolInfo) (h : Z) (q : SwapQuote) :
  Forall wf_pool ps → 0 ≤ amountIn →
  getSwapQuote inputMint outputMint amountIn ps h = Some q →
  0 ≤ fee q ≤ Z.of_nat (length (quote_route q)) * amountIn
  ∧ fee q ≤ 5 * amountIn.
Proof.
  intros Hwf Ha Hq.
  destruct (getSwapQuote_inv _ _ _ _ _ _ Hq) as (s & Hf & ->). simpl.
  rewrite fee_loop, Z.add_0_l.
  assert (Hsum : ∀ r, 0 ≤ sumZ (flatHopFee amountIn ps <$> r)
                      ≤ Z.of_nat (length r) * amountIn).
  { induction r as [| a r IH]; [unfold sumZ; simpl; lia |].
    rewrite fmap_cons. unfold sumZ in *. cbn [foldr length].
    pose proof (flatHopFee_bounds ps amountIn a Hwf Ha). lia. }
  split; [apply Hsum |].
  destruct (findOptimalRoute_valid _ _ _ _ _ Hf) as (hp & _ & Hroute & Hlen & _).
  simpl in Hlen.
  assert (Hl : Z.of_nat (length (route s)) ≤ 5)
    by (rewrite Hroute, length_fmap; lia).
  specialize (Hsum (route s)). nia.
Qed.

Lemma quote_fee_bounds_witness : 0 ≤ 6 ≤ 2 * 1000 ∧ 6 ≤ 5 * 1000.
Proof.
  apply (quote_fee_bounds tokA tokC 1000 [pool1; pool2] 3
           {| inputAmount := 1000; outputAmount := 2976; priceImpact := 0%Q;
              fee := 6; quote_route := [address pool1; address pool2] |});
    [| lia | vm_compute; reflexivity].
  repeat (apply Forall_cons; split; [unfold wf_pool; simpl; lia |]).
  apply Forall_nil_2.
Defined.

(** ** Price impact *)

(** X14. For a trade priced by [getOutputAmount] on the data model's
    values, with a positive input and a nonzero truncated spot price,
    [calculatePriceImpact] does not throw and its [impact] lies between
    0 and 1,000,000, that is between 0 and 100 percent. *)
Theorem priceImpact_of_priced_trade_in_range (pool : PoolInfo) (inputMint : PublicKey)
  (amountIn out : Z) :
  wf_pool pool → 0 < amountIn →
  0 < reserveIn pool inputMint →
  reserveIn pool inputMint ≤ reserveOut pool inputMint * 1000000 →
  getOutputAmount pool inputMint amountIn = Some out →
  ∃ impact,
    calculatePriceImpact_impact (reserveIn pool inputMint) (reserveOut pool inputMint)
      amountIn out = Returns impact
    ∧ 0 ≤ impact ≤ 1000000.
Proof.
  intros Hwf Ha HRin Hspot Hg.
  assert (Ha0 : 0 ≤ amountIn) by lia.
  destruct (getOutputAmount_floor _ _ _ _ Hwf Ha0 Hg) as [Hd E].
  assert (Hout : 0 ≤ out) by (eapply getOutputAmount_nonneg; eassumption).
  destruct (reserves_nonneg pool inputMint Hwf) as [_ HRout].
  destruct Hwf as (Hfee & _).
  unfold numerator, denominator, feeFactor in *.
  set (f := 10000 - feeBps pool) in *.
  set (RA := reserveIn pool inputMint) in *.
  set (RB := reserveOut pool inputMint) in *.
  assert (Hq : (RA * 10000 + amountIn * f) * out ≤ amountIn * f * RB)
    by (rewrite E; apply Z.mul_div_le; exact Hd).
  (* the realized price is at most the spot price: out RA <= amountIn RB *)
  assert (Hprice : out * RA ≤ amountIn * RB).
  { assert (H1 : 0 ≤ amountIn * f * out) by (repeat apply Z.mul_nonneg_nonneg; lia).
    assert (H2 : f * (amountIn * RB) ≤ 10000 * (amountIn * RB))
      by (apply Z.mul_le_mono_nonneg_r; [apply Z.mul_nonneg_nonneg; lia | lia]).
    lia. }
  unfold calculatePriceImpact_impact.
  destruct (Z.eqb_spec RA 0) as [| _]; [lia |].
  destruct (Z.eqb_spec amountIn 0) as [| _]; [lia |].
  rewrite (Z.quot_div_nonneg (RB * 1000000) RA) by lia.
  rewrite (Z.quot_div_nonneg (out * 1000000) amountIn) by lia.
  set (spot := RB * 1000000 / RA). set (exec := out * 1000000 / amountIn).
  assert (Hs : 1 ≤ spot) by (apply Z.div_le_lower_bound; lia).
  assert (He0 : 0 ≤ exec) by (apply Z.div_pos; lia).
  assert (Hexec : exec ≤ spot).
  { apply Z.div_le_lower_bound; [lia |].
    assert (Hx : amountIn * exec ≤ out * 1000000)
      by (apply Z.mul_div_le; lia).
    assert (H1 : RA * (amountIn * exec) ≤ RA * (out * 1000000))
      by (apply Z.mul_le_mono_nonneg_l; lia).
    assert (H2 : amountIn * (RA * exec) ≤ amountIn * (RB * 1000000)) by lia.
    apply Z.mul_le_mono_pos_l in H2; lia. }
  destruct (Z.eqb_spec spot 0) as [| _]; [lia |].
  rewrite (Z.quot_div_nonneg (exec * 1000000) spot) by lia.
  eexists. split; [reflexivity |].
  assert (0 ≤ exec * 1000000 / spot) by (apply Z.div_pos; lia).
  assert (exec * 1000000 / spot ≤ 1000000)
    by (apply Z.div_le_upper_bound; lia).
  lia.
Qed.

Lemma priceImpact_of_priced_trade_in_range_witness :
  ∃ impact,
    calculatePriceImpact_impact (reserveIn pool1 tokA) (reserveOut pool1 tokA)
      1000 1992 = Returns impact
    ∧ 0 ≤ impact ≤ 1000000.
Proof.
  apply (priceImpact_of_priced_trade_in_range pool1 tokA 1000 1992);
    [unfold wf_pool; simpl; lia | lia | vm_compute; reflexivity
    | vm_compute; discriminate | vm_compute; reflexivity].
Defined.

(** ** Instruction builders *)

(** X15. The find-optimal-route instruction carries the tag 1 alone as
    data, asks for no signature, lets only the route state be written,
    and lists the pool accounts after the route state in the order
    given, so that they can be read back from its keys. *)
Theorem findOptimalRoute_instruction_accounts (program routeState : PublicKey)
  (poolAccounts : list PublicKey) :
  let ix := createFindOptimalRouteInstruction program routeState poolAccounts in
  data ix = [1]
  ∧ pubkey <$> keys ix = routeState :: poolAccounts
  ∧ Forall (λ k, isSigner k = false) (keys ix)
  ∧ pubkey <$> filter (λ k, isWritable k = true) (keys ix) = [routeState].
Proof.
  unfold createFindOptimalRouteInstruction. cbn [keys data instructionTag].
  split; [reflexivity |].
  split; [| split].
  - rewrite fmap_cons. f_equal. rewrite <- list_fmap_compose.
    induction poolAccounts as [| a l IH]; [reflexivity |].
    rewrite fmap_cons. f_equal. exact IH.
  - constructor; [reflexivity |]. apply Forall_fmap. apply Forall_forall.
    intros a _. reflexivity.
  - rewrite filter_cons_True by reflexivity. rewrite fmap_cons. f_equal.
    induction poolAccounts as [| a l IH]; [reflexivity |].
    rewrite fmap_cons. rewrite filter_cons_False by (simpl; discriminate).
    exact IH.
Qed.

(** X16. The execute-route instruction carries the tag 2 alone as data;
    its only signer is the authority, which is its only read-only
    account, and the pool and token accounts follow the route state,
    the authority and the two user token accounts in the order given. *)
Theorem executeRoute_instruction_accounts (program routeState authority
  userInputTokenAccount userOutputTokenAccount : PublicKey)
  (poolAndTokenAccounts : list PublicKey) :
  let ix := createExecuteRouteInstruction program routeState authority
              userInputTokenAccount userOutputTokenAccount poolAndTokenAccounts in
  data ix = [2]
  ∧ pubkey <$> keys ix
    = routeState :: authority :: userInputTokenAccount :: userOutputTokenAccount
      :: poolAndTokenAccounts
  ∧ pubkey <$> filter (λ k, isSigner k = true) (keys ix) = [authority]
  ∧ pubkey <$> filter (λ k, isWritable k = false) (keys ix) = [authority].
Proof.
  unfold createExecuteRouteInstruction. cbn [keys data instructionTag].
  split; [reflexivity |].
  split; [| split].
  - rewrite !fmap_cons. do 4 f_equal. rewrite <- list_fmap_compose.
    induction poolAndTokenAccounts as [| a l IH]; [reflexivity |].
    rewrite fmap_cons. f_equal. exact IH.
  - rewrite filter_cons_False by (simpl; discriminate).
    rewrite filter_cons_True by reflexivity.
    do 2 (rewrite filter_cons_False by (simpl; discriminate)).
    rewrite fmap_cons. f_equal.
    induction poolAndTokenAccounts as [| a l IH]; [reflexivity |].
    rewrite fmap_cons. rewrite filter_cons_False by (simpl; discriminate).
    exact IH.
  - rewrite filter_cons_False by (simpl; discriminate).
    rewrite filter_cons_True by reflexivity.
    do 2 (rewrite filter_cons_False by (simpl; discriminate)).
    rewrite fmap_cons. f_equal.
    induction poolAndTokenAccounts as [| a l IH]; [reflexivity |].
    rewrite fmap_cons. rewrite filter_cons_False by (simpl; discriminate).
    exact IH.
Qed.

(** ** A zero input and a higher fee *)

Lemma routeOutput_zero (hopPools : list PoolInfo) (tok t : PublicKey) (a : Z) :
  routeOutput hopPools tok 0 = Some (t, a) → a = 0.
Proof.
  revert tok. induction hopPools as [| p rest IH]; intros tok Hr; simpl in Hr.
  - injection Hr as _ <-. reflexivity.
  - destruct (getOtherToken p tok) as [next |]; [| discriminate].
    destruct (getOutputAmount p tok 0) as [out |] eqn:Hg; [| discriminate].
    assert (out = 0) as ->.
    { unfold getOutputAmount in Hg. destruct (_ && _); [discriminate |].
      destruct (_ =? 0); [discriminate |]. injection Hg as <-.
      unfold numerator. reflexivity. }
    eapply IH. exact Hr.
Qed.

(** X17. An input amount of zero never yields a route, in any snapshot
    and under any hop bound: the loop terminates with none. *)
Theorem zero_input_no_route (ps : list PoolInfo) (h : Z)
  (inputMint outputMint : PublicKey) :
  findOptimalRoute (newAStarPathfinder ps h) inputMint outputMint 0 = None
  ∧ ∀ fuel, (enoughFuel (newAStarPathfinder ps h) ≤ fuel)%nat →
      findOptimalRoute_fuel fuel (newAStarPathfinder ps h) inputMint outputMint 0
      = Some None.
Proof.
  assert (Hn : findOptimalRoute (newAStarPathfinder ps h) inputMint outputMint 0
               = None).
  { destruct (findOptimalRoute _ _ _ _) as [s |] eqn:Hf; [| reflexivity].
    exfalso.
    pose proof (findOptimalRoute_distinct _ _ _ _ _ Hf) as Hne.
    destruct (findOptimalRoute_valid _ _ _ _ _ Hf)
      as (hp & _ & _ & _ & Hr & _ & Hnz).
    apply Hnz; [eapply validRoute_nonempty; eassumption |].
    eapply routeOutput_zero. exact Hr. }
  split; [exact Hn |]. apply findOptimalRoute_none_total. exact Hn.
Qed.

(** X18. On the data model's values a higher fee never gives a larger
    output: of two pools with the same assets and reserves, the one
    with the larger [feeBps] pays out no more for the same input. *)
Theorem getOutputAmount_fee_antitone (cheap dear : PoolInfo) (inputMint : PublicKey)
  (amountIn outCheap outDear : Z) :
  wf_pool cheap → wf_pool dear → 0 ≤ amountIn →
  tokenA cheap = tokenA dear → tokenB cheap = tokenB dear →
  reserveA cheap = reserveA dear → reserveB cheap = reserveB dear →
  feeBps cheap ≤ feeBps dear →
  getOutputAmount cheap inputMint amountIn = Some outCheap →
  getOutputAmount dear inputMint amountIn = Some outDear →
  outDear ≤ outCheap.
Proof.
  intros Hwc Hwd Ha HtA HtB HrA HrB Hfee Hgc Hgd.
  destruct (getOutputAmount_floor _ _ _ _ Hwc Ha Hgc) as [Hdc ->].
  destruct (getOutputAmount_floor _ _ _ _ Hwd Ha Hgd) as [Hdd ->].
  destruct (reserves_nonneg dear inputMint Hwd) as [Hin Hout].
  assert (ERin : reserveIn cheap inputMint = reserveIn dear inputMint)
    by (unfold reserveIn; rewrite HtA, HrA, HrB; reflexivity).
  assert (ERout : reserveOut cheap inputMint = reserveOut dear inputMint)
    by (unfold reserveOut; rewrite HtA, HrA, HrB; reflexivity).
  destruct Hwc as (Hfc & _). destruct Hwd as (Hfd & _).
  unfold numerator, denominator, feeFactor in *. rewrite ERin, ERout in *.
  set (u1 := amountIn * (10000 - feeBps dear)) in *.
  set (u2 := amountIn * (10000 - feeBps cheap)) in *.
  set (D := reserveIn dear inputMint * 10000) in *.
  set (R := reserveOut dear inputMint) in *.
  assert (Hu1 : 0 ≤ u1) by (apply Z.mul_nonneg_nonneg; lia).
  assert (Hu12 : u1 ≤ u2) by (apply Z.mul_le_mono_nonneg_l; lia).
  assert (HD : 0 ≤ D) by lia.
  apply Z.div_le_lower_bound; [exact Hdc |].
  set (q := u1 * R / (D + u1)).
  assert (Hq : (D + u1) * q ≤ u1 * R) by (apply Z.mul_div_le; exact Hdd).
  assert (Hgap : 0 ≤ (u2 - u1) * (R * D))
    by (apply Z.mul_nonneg_nonneg; [| apply Z.mul_nonneg_nonneg]; lia).
  assert (Hcross : u1 * R * (D + u2) ≤ u2 * R * (D + u1)) by lia.
  assert (Hscale : (D + u2) * ((D + u1) * q) ≤ (D + u2) * (u1 * R))
    by (apply Z.mul_le_mono_nonneg_l; [lia | exact Hq]).
  assert (Hm : (D + u2) * q * (D + u1) ≤ u2 * R * (D + u1)) by lia.
  apply Z.mul_le_mono_pos_r in Hm; [exact Hm | exact Hdd].
Qed.

Lemma getOutputAmount_fee_antitone_witness : 1988 ≤ 1992.
Proof.
  apply (getOutputAmount_fee_antitone pool1
           (mkPool 104 tokA tokB 50 1000000 2000000) tokA 1000 1992 1988);
    try reflexivity;
    [unfold wf_pool; simpl; lia | unfold wf_pool; simpl; lia | lia
    | simpl; lia].
Defined.
